(** * Channel capacity solver (Duh1a.py): a shallow embedding and its properties

    The program sizes the bed width of a trapezoidal canal: starting from
    [b0] it widens the bed by [alh] per step, evaluates the discharge with
    one of three Chezy formulas, writes every pair (width, discharge) to
    [qfb.dat], remembers the last width whose discharge does not exceed the
    target [q], and stops once the discharge reaches [1.2 * q] or after [n]
    steps.

    Number model.  The program is embedded twice.

    The first embedding computes with the real numbers [R] of the Standard
    Library: it is the program over exact arithmetic, without rounding,
    overflow, infinities or NaN.  What Python's arithmetic does beyond
    plain real arithmetic is kept:
    - [x / y] raises ZeroDivisionError when [y] is zero;
    - [math.sqrt] and [math.log10] raise ValueError outside their domains;
    - [x ** y] on floats raises ZeroDivisionError for a zero base and a
      negative exponent, and yields a *complex* number for a negative base
      and a non-integral exponent;
    - an order comparison with a complex operand raises TypeError.
    The formulas of the evaluator and the selection of the result are stated
    over it.

    The second embedding ([Machine]) is the same program over an arithmetic
    about which nothing is assumed: sums and products may round, overflow or
    produce a NaN, comparisons may fail on a NaN, [**] may raise
    OverflowError.  The control flow of the search (termination, stepping,
    the guards of validation, the reasons for leaving the loop) is stated
    over it, so that it holds for the binary64 arithmetic of the
    interpreter; the first embedding is its instance at exact arithmetic
    ([exact_compute_channel]).

    The command-line front end ([prompt_float], [prompt_int], [main]) is
    modelled over a terminal: the input lines still to be read and the list
    of what was written or launched. *)

From Stdlib Require Import Reals Lra Lia ZArith List String Bool.
From Stdlib Require Floats Uint63.
Import ListNotations.

Local Open Scope R_scope.

(** ** Python numbers and exceptions *)

Module Py.

Inductive exn : Type :=
| ValueError (msg : string)
| ZeroDivisionError
| OverflowError
| TypeError.

(** A value of a numeric expression: a float, or a complex number.  The
    value of a complex number is not tracked: the program only multiplies it
    (which keeps it complex), prints it, and compares it (which raises). *)
Inductive pyval : Type :=
| PFloat (x : R)
| PComplex.

(** Fallible pure computations: [inl e] is "raises e". *)
Definition res (A : Type) : Type := (exn + A)%type.

Definition ret {A} (a : A) : res A := inr a.
Definition raise {A} (e : exn) : res A := inl e.
Definition bind {A B} (c : res A) (k : A -> res B) : res B :=
  match c with
  | inl e => inl e
  | inr a => k a
  end.

Definition domain_error : exn := ValueError "math domain error".

(** [x / y] on floats. *)
Definition div (x y : R) : res R :=
  if Req_dec_T y 0 then raise ZeroDivisionError else ret (x / y).

(** [math.sqrt(x)]. *)
Definition math_sqrt (x : R) : res R :=
  if Rlt_dec x 0 then raise domain_error else ret (sqrt x).

(** [math.log10(x)]. *)
Definition math_log10 (x : R) : res R :=
  if Rle_dec x 0 then raise domain_error else ret (ln x / ln 10).

(** A float holds an integral value. *)
Definition is_integer (y : R) : bool :=
  if Req_dec_T (IZR (Int_part y)) y then true else false.

(** [x ** y] on floats. *)
Definition pow (x y : R) : res pyval :=
  if Rlt_dec 0 x then ret (PFloat (Rpower x y))
  else if Req_dec_T x 0 then
    if Rlt_dec 0 y then ret (PFloat 0)
    else if Req_dec_T y 0 then ret (PFloat 1)
    else raise ZeroDivisionError
  else if is_integer y then
    ret (PFloat (if Z.even (Int_part y) then Rpower (- x) y
                 else - Rpower (- x) y))
  else ret PComplex.

(** [a * b]: a product with a complex factor is complex. *)
Definition mul (a b : pyval) : pyval :=
  match a, b with
  | PFloat x, PFloat y => PFloat (x * y)
  | _, _ => PComplex
  end.

(** [a <= x] and [a < x] with a float right operand. *)
Definition le (a : pyval) (x : R) : res bool :=
  match a with
  | PFloat v => ret (if Rle_dec v x then true else false)
  | PComplex => raise TypeError
  end.

Definition lt (a : pyval) (x : R) : res bool :=
  match a with
  | PFloat v => ret (if Rlt_dec v x then true else false)
  | PComplex => raise TypeError
  end.

End Py.

Import Py.

Declare Scope res_scope.
Delimit Scope res_scope with res.
Notation "x <- c ;; k" := (Py.bind c (fun x => k))
  (at level 61, c at next level, right associativity) : res_scope.

(** ** The sample file and the loop monad *)

(** One line of [qfb.dat]: the width and the discharge that line 55 formats
    at a step.  The text of the line is their rendering to ten decimals
    ([recorded] below). *)
Definition Sample : Type := (R * pyval)%type.

(** The lines written so far, oldest first. *)
Definition File : Type := list Sample.

(** Computations of the loop body: they may write to the open file and may
    raise; what was written before an exception stays written. *)
Definition io (A : Type) : Type := File -> res A * File.

Definition io_ret {A} (a : A) : io A := fun f => (inr a, f).
Definition io_bind {A B} (c : io A) (k : A -> io B) : io B :=
  fun f =>
    match c f with
    | (inl e, f') => (inl e, f')
    | (inr a, f') => k a f'
    end.
Definition lift {A} (c : res A) : io A := fun f => (c, f).
Definition write (s : Sample) : io unit := fun f => (inr tt, f ++ [s]).

Declare Scope io_scope.
Delimit Scope io_scope with io.
Notation "x <- c ;; k" := (io_bind c (fun x => k))
  (at level 61, c at next level, right associativity) : io_scope.
Notation "c ;; k" := (io_bind c (fun _ => k))
  (at level 61, right associativity) : io_scope.

(** ** Data *)

(** What one step computes at a width. *)
Record Eval : Type := mkEval {
  ev_w : R;        (* wetted area *)
  ev_rg : R;       (* hydraulic radius *)
  ev_cz : pyval;   (* Chezy coefficient *)
  ev_qt : pyval    (* discharge *)
}.

(** The variables [bt], [qth], [rgt], [czt] of the loop. *)
Record Track : Type := mkTrack {
  t_bt : R;
  t_qth : pyval;
  t_rgt : R;
  t_czt : pyval
}.

(** The dictionary the function returns. *)
Record ResultRecord : Type := mkResult {
  bt : R;
  qth : pyval;
  rgt : R;
  czt : pyval;
  cr05 : pyval
}.

Definition track0 : Track := mkTrack 0 (PFloat 0) 0 (PFloat 0).

(** The record of a run in which no width was within the target. *)
Definition zero_record : ResultRecord :=
  mkResult 0 (PFloat 0) 0 (PFloat 0) (PFloat 0).

(** What a call leaves behind: its result or exception, and the state of
    [qfb.dat] ([None]: never opened by the call; [Some l]: opened for
    writing, now holding the lines [l]). *)
Definition Outcome : Type := (res ResultRecord * option File)%type.

(** ** compute_channel *)

Section ComputeChannel.

Variables (q sl mn nb h : R) (jcz : Z) (b0 : R) (n : Z) (alh : R).

(** Lines 16-23: the four guards, in order. *)
Definition validate : res unit :=
  if Rle_dec nb 0 then raise (ValueError "Barzgarshilt (nb) must be > 0.")
  else if Rle_dec h 0 then raise (ValueError "Depth h must be > 0.")
  else if Rlt_dec sl 0 then raise (ValueError "Slope sl must be >= 0.")
  else if negb ((jcz =? 0) || (jcz =? 1) || (jcz =? 2))%Z
       then raise (ValueError
         "jcz must be 0 (Pawlowski), 1 (Agroskin), or 2 (Manning).")
  else ret tt.

(** Lines 41-48: the Chezy coefficient at hydraulic radius [rg]. *)
Definition chezy (rg : R) : res pyval :=
  (if (jcz =? 0)%Z then
     ay <- (if Rle_dec 1 rg
            then s <- math_sqrt nb ;; ret (1.5 * s)
            else s <- math_sqrt nb ;; ret (1.3 * s)) ;;
     inv <- div 1 nb ;;
     p <- pow rg ay ;;
     ret (mul (PFloat inv) p)
   else if (jcz =? 1)%Z then
     inv <- div 1 nb ;;
     l <- math_log10 (if Rlt_dec 1e-12 rg then rg else 1e-12) ;;
     ret (PFloat (inv + 17.72 * l))
   else
     inv <- div 1 nb ;;
     p <- pow rg (1 / 6) ;;
     ret (mul (PFloat inv) p))%res.

(** Lines 34-52: geometry, coefficient and discharge at bed width [b].
    [mn ** 2] has an integer exponent: in exact arithmetic it is the square
    ([pow_square]). *)
Definition evaluate (b : R) : res Eval :=
  (let w := (b + mn * h) * h in
   s <- math_sqrt (1 + mn ^ 2) ;;
   let ksi := b + 2 * h * s in
   let ksi := if Rle_dec ksi 0 then 1e-12 else ksi in
   rg <- div w ksi ;;
   cz <- chezy rg ;;
   let rgsl := rg * sl in
   r <- math_sqrt (if Rlt_dec 0 rgsl then rgsl else 0) ;;
   let qt := mul (mul (PFloat w) cz) (PFloat r) in
   ret (mkEval w rg cz qt))%res.

(** Lines 32-68: [k] remaining iterations of the [for] loop, at width [b]
    with running best [t]. *)
Fixpoint search (k : nat) (b : R) (t : Track) : io Track :=
  match k with
  | O => io_ret t
  | S k' =>
      (ev <- lift (evaluate b) ;;
       write (b, ev_qt ev) ;;
       upd <- lift (le (ev_qt ev) q) ;;
       let t' := if (upd : bool)
                 then mkTrack b (ev_qt ev) (ev_rg ev) (ev_cz ev)
                 else t in
       go <- lift (lt (ev_qt ev) (1.2 * q)) ;;
       if (go : bool) then search k' (b + alh) t' else io_ret t')%io
  end.

(** Lines 70-73: the returned dictionary. *)
Definition finish (t : Track) : res ResultRecord :=
  (r <- math_sqrt (if Rlt_dec 0 (t_rgt t) then t_rgt t else 0) ;;
   ret (mkResult (t_bt t) (t_qth t) (t_rgt t) (t_czt t)
                 (mul (t_czt t) (PFloat r))))%res.

(** The whole function.  [range(int(n))] runs [Z.to_nat n] times, that is
    not at all for [n <= 0]. *)
Definition compute_channel : Outcome :=
  match validate with
  | inl e => (inl e, None)
  | inr _ =>
      match search (Z.to_nat n) b0 track0 [] with
      | (inl e, f) => (inl e, Some f)
      | (inr t, f) => (finish t, Some f)
      end
  end.

End ComputeChannel.

(** ** The formulas as the specification words them *)

Section Formulas.

Variables (sl mn nb h : R) (jcz : Z).

(** The parameters that validation accepts. *)
Definition valid : Prop :=
  0 < nb /\ 0 < h /\ 0 <= sl /\ (jcz = 0 \/ jcz = 1 \/ jcz = 2)%Z.

(** The parameters that validation refuses. *)
Definition invalid : Prop :=
  nb <= 0 \/ h <= 0 \/ sl < 0 \/ (jcz <> 0 /\ jcz <> 1 /\ jcz <> 2)%Z.

Definition area (b : R) : R := (b + mn * h) * h.

Definition perimeter (b : R) : R :=
  let p := b + 2 * h * sqrt (1 + mn ^ 2) in
  if Rle_dec p 0 then 1e-12 else p.

Definition hydraulic_radius (b : R) : R := area b / perimeter b.

Definition log10 (x : R) : R := ln x / ln 10.

(** C as a function of R; the power is Python's [**]. *)
Definition coefficient (r : R) : res pyval :=
  (if (jcz =? 0)%Z then
     let ay := if Rle_dec 1 r then 1.5 * sqrt nb else 1.3 * sqrt nb in
     p <- pow r ay ;; ret (mul (PFloat (1 / nb)) p)
   else if (jcz =? 1)%Z then
     ret (PFloat (1 / nb + 17.72 * log10 (Rmax r 1e-12)))
   else
     p <- pow r (1 / 6) ;; ret (mul (PFloat (1 / nb)) p))%res.

(** Q_t = A * C * sqrt (max (R * S) 0). *)
Definition discharge (b : R) : res pyval :=
  (c <- coefficient (hydraulic_radius b) ;;
   ret (mul (mul (PFloat (area b)) c)
            (PFloat (sqrt (Rmax (hydraulic_radius b * sl) 0)))))%res.

(** The same for a positive hydraulic radius, where the power is the real
    power function. *)
Definition real_coefficient (r : R) : R :=
  if (jcz =? 0)%Z then
    1 / nb * Rpower r (if Rle_dec 1 r then 1.5 * sqrt nb else 1.3 * sqrt nb)
  else if (jcz =? 1)%Z then 1 / nb + 17.72 * log10 (Rmax r 1e-12)
  else 1 / nb * Rpower r (1 / 6).

Definition real_discharge (b : R) : R :=
  area b * real_coefficient (hydraulic_radius b)
  * sqrt (Rmax (hydraulic_radius b * sl) 0).

End Formulas.

(** ** The loop seen from outside: the lines written and the selection *)

Section Observing.

Variables (q sl mn nb h : R) (jcz : Z) (alh : R).

Local Abbreviation eval := (evaluate sl mn nb h jcz).
Local Abbreviation loop := (search q sl mn nb h jcz alh).

(** Line 58-62: the running best after a step with a real discharge [x]. *)
Definition update (t : Track) (b : R) (ev : Eval) (x : R) : Track :=
  if Rle_dec x q then mkTrack b (PFloat x) (ev_rg ev) (ev_cz ev) else t.

(** The lines written by [k] iterations from width [b], and how they end. *)
Definition trace (k : nat) (b : R) (t : Track) : File := snd (loop k b t []).
Definition outcome (k : nat) (b : R) (t : Track) : res Track :=
  fst (loop k b t []).

(** A well-formed sequence of lines from width [b]: each line holds the
    width of its step and the discharge evaluated there, the next width is
    [alh] further, and a line is followed by another only if its discharge
    is a real number below [1.2 * q]. *)
Fixpoint stepwise (b : R) (l : File) : Prop :=
  match l with
  | [] => True
  | s :: l' =>
      fst s = b /\
      (exists ev, eval b = inr ev /\ ev_qt ev = snd s) /\
      (l' <> [] -> exists x, snd s = PFloat x /\ x < 1.2 * q) /\
      stepwise (b + alh) l'
  end.

(** The sample's discharge is a real number not above the target. *)
Definition within (s : Sample) : bool :=
  match snd s with
  | PFloat x => if Rle_dec x q then true else false
  | PComplex => false
  end.

(** The last sample of the sequence that is within the target. *)
Fixpoint last_within (l : File) : option Sample :=
  match l with
  | [] => None
  | s :: l' =>
      match last_within l' with
      | Some s' => Some s'
      | None => if within s then Some s else None
      end
  end.

(** The running best for a sample: its width and discharge, the hydraulic
    radius and the coefficient recomputed at its width. *)
Definition track_of (s : Sample) : Track :=
  match eval (fst s) with
  | inr ev => mkTrack (fst s) (snd s) (ev_rg ev) (ev_cz ev)
  | inl _ => track0
  end.

(** Selection over [l], starting from the running best [t]. *)
Definition pick (t : Track) (l : File) : Track :=
  match last_within l with
  | Some s => track_of s
  | None => t
  end.


End Observing.

(** The lines of [k] iterations from width [b] when every discharge is 0
    and the target is positive. *)
Fixpoint flat_lines (alh : R) (k : nat) (b : R) : File :=
  match k with
  | O => []
  | S k' => (b, PFloat 0) :: flat_lines alh k' (b + alh)
  end.

(** ** The claims that the code does not meet, as they are worded *)

(** The claim as worded: a returning call returns the largest evaluated
    width whose discharge is within the target, with the discharge, the
    hydraulic radius and the coefficient evaluated there. *)
Definition widest_within_as_stated
    (q sl mn nb h : R) (jcz : Z) (b0 : R) (n : Z) (alh : R) : Prop :=
  forall r l,
    compute_channel q sl mn nb h jcz b0 n alh = (inr r, Some l) ->
    (exists qt, In (bt r, qt) l /\ within q (bt r, qt) = true) /\
    (forall s, In s l -> within q s = true -> fst s <= bt r) /\
    discharge sl mn nb h jcz (bt r) = inr (qth r) /\
    rgt r = hydraulic_radius mn h (bt r) /\
    coefficient nb jcz (rgt r) = inr (czt r).


(** The claim as worded: the first line is at [b0], and each line is
    followed by one at a strictly larger width, larger by exactly [alh]. *)
Definition widths_as_stated
    (q sl mn nb h : R) (jcz : Z) (b0 : R) (n : Z) (alh : R) : Prop :=
  forall r l,
    compute_channel q sl mn nb h jcz b0 n alh = (r, Some l) ->
    (forall s, nth_error l 0 = Some s -> fst s = b0) /\
    (forall i s s', nth_error l i = Some s -> nth_error l (S i) = Some s' ->
                    fst s < fst s' /\ fst s' = fst s + alh).

(** The claim as worded: [cr05] is [czt] times the square root of [rgt]. *)
Definition conveyance_as_stated
    (q sl mn nb h : R) (jcz : Z) (b0 : R) (n : Z) (alh : R) : Prop :=
  forall r l,
    compute_channel q sl mn nb h jcz b0 n alh = (inr r, Some l) ->
    exists s, math_sqrt (rgt r) = inr s /\ cr05 r = mul (czt r) (PFloat s).

(** ** The command line: the prompts and [main]

    [main] is modelled after its call of [parse_args]: it starts from the
    namespace that argparse returns; [run_main] below adds the two ways in
    which argparse ends the program itself.  The terminal is a list of input lines
    still to be read and the list of what was written; decimal formatting is
    not modelled, a written line carries the values it shows.  The builtins
    [float] and [int] applied to a stripped input line are parameters
    ([None]: they raise ValueError). *)

(** What the program writes to standard output, or launches.
    [SayPlotError] is the line [Note: gnuplot run error:] followed by the
    text of the exception that starting gnuplot raised; [SayUsage] is the
    help text of argparse. *)
Inductive event : Type :=
| Say (s : string)
| Ask (msg : string)
| SayAllowed (allowed : list Z)
| SayError (e : exn)
| SayResult (r : ResultRecord)
| Gnuplot
| SayPlotError
| SayUsage.

Record World : Type := mkWorld {
  stdin : list string;
  stdout : list event
}.

(** Computations on the terminal; [None]: [input] met the end of the input
    and raised EOFError. *)
Definition console (A : Type) : Type := World -> option A * World.

Definition con_ret {A} (a : A) : console A := fun w => (Some a, w).
Definition con_bind {A B} (c : console A) (k : A -> console B) : console B :=
  fun w =>
    match c w with
    | (None, w') => (None, w')
    | (Some a, w') => k a w'
    end.
Definition say (s : string) : console unit :=
  fun w => (Some tt, mkWorld (stdin w) (stdout w ++ [Say s])).

Declare Scope con_scope.
Delimit Scope con_scope with con.
Notation "x <- c ;; k" := (con_bind c (fun x => k))
  (at level 61, c at next level, right associativity) : con_scope.
Notation "c ;; k" := (con_bind c (fun _ => k))
  (at level 61, right associativity) : con_scope.

(** The namespace of [parse_args]: the seven values without default, then
    [--n], [--alh], [--plot] and [--noplot]. *)
Record Namespace : Type := mkArgs {
  a_q : option R;
  a_sl : option R;
  a_mn : option R;
  a_nb : option R;
  a_h : option R;
  a_jcz : option Z;
  a_b0 : option R;
  a_n : Z;
  a_alh : R;
  a_plot : bool;
  a_noplot : bool
}.

(** What [shutil.which] and [subprocess.run] meet: no gnuplot on the path,
    one that is started, or one whose start raises. *)
Inductive gnuplot_state : Type := NotFound | Runs | Fails.

(** How [main] ends: it returns, calls [sys.exit], or lets the EOFError of a
    prompt escape. *)
Inductive ending : Type :=
| Done
| SysExit (code : Z)
| UncaughtEOF.

Record Run : Type := mkRun {
  r_end : ending;
  r_world : World;
  r_file : option File
}.

Section CommandLine.

Variables (float_of : string -> option R) (int_of : string -> option Z).

(** Lines 91-97.  The [while True] loop reads on until a line parses; it
    recurses on the input still to be read. *)
Fixpoint prompt_float_from (msg : string) (lines : list string)
    (out : list event) : option R * World :=
  match lines with
  | [] => (None, mkWorld [] (out ++ [Ask msg]))
  | s :: rest =>
      match float_of s with
      | Some v => (Some v, mkWorld rest (out ++ [Ask msg]))
      | None =>
          prompt_float_from msg rest
            (out ++ [Ask msg; Say "Please enter a number."])
      end
  end.

Definition prompt_float (msg : string) : console R :=
  fun w => prompt_float_from msg (stdin w) (stdout w).

(** Lines 99-108. *)
Fixpoint prompt_int_from (msg : string) (allowed : option (list Z))
    (lines : list string) (out : list event) : option Z * World :=
  match lines with
  | [] => (None, mkWorld [] (out ++ [Ask msg]))
  | s :: rest =>
      match int_of s with
      | Some v =>
          match allowed with
          | None => (Some v, mkWorld rest (out ++ [Ask msg]))
          | Some a =>
              if existsb (Z.eqb v) a
              then (Some v, mkWorld rest (out ++ [Ask msg]))
              else prompt_int_from msg allowed rest
                     (out ++ [Ask msg; SayAllowed a])
          end
      | None =>
          prompt_int_from msg allowed rest
            (out ++ [Ask msg; Say "Please enter an integer."])
      end
  end.

Definition prompt_int (msg : string) (allowed : option (list Z)) : console Z :=
  fun w => prompt_int_from msg allowed (stdin w) (stdout w).

(** The seven values [compute_channel] is called with. *)
Definition Inputs : Type := (R * R * R * R * R * Z * R)%type.

(** Lines 116-128: all seven values are asked for. *)
Definition ask_inputs : console Inputs :=
  (say "Zartsuulga ugnu uu, m3s-1" ;;
   q <- prompt_float "> " ;;
   say "Hewgii, Hajuu naluu, Barzgariig ugnu uu (3 too, зайгаар тусгаарлаад оруулна)" ;;
   sl <- prompt_float "  Hewgii (sl): " ;;
   mn <- prompt_float "  Hajuu naluu (mn): " ;;
   nb <- prompt_float "  Barzgarshilt (nb): " ;;
   say "h-g ugnu uu, m" ;;
   h <- prompt_float "> " ;;
   say "Shezi bodson arga? 0-Pawlowski, 1-Agroskin, 2-Manning" ;;
   jcz <- prompt_int "> " (Some [0; 1; 2]%Z) ;;
   say "Ehnii b ugnu uu, m" ;;
   b0 <- prompt_float "> " ;;
   con_ret (q, sl, mn, nb, h, jcz, b0))%con.

(** Lines 114-136: interactive as soon as one of the seven is missing. *)
Definition inputs (a : Namespace) : console Inputs :=
  match a_q a, a_sl a, a_mn a, a_nb a, a_h a, a_jcz a, a_b0 a with
  | Some q, Some sl, Some mn, Some nb, Some h, Some jcz, Some b0 =>
      con_ret (q, sl, mn, nb, h, jcz, b0)
  | _, _, _, _, _, _, _ => ask_inputs
  end.

(** Lines 150-158. *)
Definition plot (g : gnuplot_state) : list event :=
  match g with
  | Runs => [Gnuplot]
  | Fails => [Gnuplot; SayPlotError]
  | NotFound =>
      [Say "Note: gnuplot not found. Install it or run without --plot."]
  end.

(** Lines 110-158. *)
Definition main (a : Namespace) (g : gnuplot_state) (w : World) : Run :=
  match inputs a w with
  | (None, w1) => mkRun UncaughtEOF w1 None
  | (Some (q, sl, mn, nb, h, jcz, b0), w1) =>
      let do_plot := a_plot a && negb (a_noplot a) in
      match compute_channel q sl mn nb h jcz b0 (a_n a) (a_alh a) with
      | (inl e, f) =>
          mkRun (SysExit 1) (mkWorld (stdin w1) (stdout w1 ++ [SayError e])) f
      | (inr r, f) =>
          let shown :=
            stdout w1 ++
            [SayResult r; Say "Data written to 'qfb.dat' (columns: b, qt)."] in
          mkRun Done
            (mkWorld (stdin w1) (if do_plot then shown ++ plot g else shown)) f
      end
  end.

End CommandLine.

(** A reader of the one-character numerals 0, 1 and 2, to build concrete
    runs of the prompts. *)
Definition digit_float (s : string) : option R :=
  if String.eqb s "0" then Some 0
  else if String.eqb s "1" then Some 1
  else if String.eqb s "2" then Some 2
  else None.

Definition digit_int (s : string) : option Z :=
  if String.eqb s "0" then Some 0%Z
  else if String.eqb s "1" then Some 1%Z
  else if String.eqb s "2" then Some 2%Z
  else None.

(** What one rejected line costs at a float prompt. *)
Definition float_retries (msg : string) (bad : list string) : list event :=
  flat_map (fun _ => [Ask msg; Say "Please enter a number."]) bad.

(** The events of the dialogue, as opposed to those of the outcome. *)
Definition is_dialogue (ev : event) : Prop :=
  match ev with
  | Say _ | Ask _ | SayAllowed _ => True
  | SayError _ | SayResult _ | Gnuplot | SayPlotError | SayUsage => False
  end.

(** A computation on the terminal that only converses: it reads lines from
    the front of the input, at least [k] of them when it succeeds, appends
    dialogue to the output, and fails only with the input used up. *)
Definition converses (k : nat) {A} (c : console A) : Prop :=
  forall w r w',
    c w = (r, w') ->
    exists used evs,
      stdin w = used ++ stdin w' /\
      stdout w' = stdout w ++ evs /\
      Forall is_dialogue evs /\
      (r = None -> stdin w' = []) /\
      (r <> None -> (k <= List.length used)%nat).

(** One of the seven values without default is missing. *)
Definition missing (a : Namespace) : Prop :=
  a_q a = None \/ a_sl a = None \/ a_mn a = None \/ a_nb a = None \/
  a_h a = None \/ a_jcz a = None \/ a_b0 a = None.

(** The namespace with none of the seven given. *)
Definition blank (a : Namespace) : Namespace :=
  mkArgs None None None None None None None
         (a_n a) (a_alh a) (a_plot a) (a_noplot a).

(** The namespace of a command line that gives all seven. *)
Definition given (q sl mn nb h : R) (jcz : Z) (b0 : R) (n : Z) (alh : R)
    (plot noplot : bool) : Namespace :=
  mkArgs (Some q) (Some sl) (Some mn) (Some nb) (Some h) (Some jcz) (Some b0)
         n alh plot noplot.

(** ** The program over an arbitrary floating-point arithmetic

    The definitions above compute with exact real numbers.  The program
    computes with binary64 floats: sums, products and quotients are rounded
    or overflow to an infinity, a NaN compares false with everything, and
    [x ** y] raises OverflowError when its result is out of range.  The
    module below is the same program over an arithmetic about which nothing
    is assumed: a type of floats with the operations the program uses, each
    raising only what the Python operation can raise.  What is proved of it
    holds for binary64 ([Binary64] below), and the exact model is its
    instance [Exact]. *)

Module Machine.

(** What [x ** y] does on two floats. *)
Inductive power (F : Type) : Type :=
| PowFloat (x : F)
| PowComplex
| PowOverflow
| PowZeroDivision.

Arguments PowFloat {F} x.
Arguments PowComplex {F}.
Arguments PowOverflow {F}.
Arguments PowZeroDivision {F}.

(** [flit n d] is the float of the decimal literal [n / d]; [fdiv] is [None]
    where [/] raises ZeroDivisionError; [fsqrt] and [flog10] are [None]
    where [math.sqrt] and [math.log10] raise ValueError; [fle] and [flt]
    are [<=] and [<] ([x >= y] is [y <= x], [x > y] is [y < x]). *)
Record Arith : Type := mkArith {
  carrier : Type;
  flit : Z -> Z -> carrier;
  fadd : carrier -> carrier -> carrier;
  fmul : carrier -> carrier -> carrier;
  fdiv : carrier -> carrier -> option carrier;
  fsqrt : carrier -> option carrier;
  flog10 : carrier -> option carrier;
  fpow : carrier -> carrier -> power carrier;
  fle : carrier -> carrier -> bool;
  flt : carrier -> carrier -> bool
}.

Section Program.

Variable A : Arith.

Local Abbreviation F := (carrier A).

(** A float or a complex number. *)
Inductive value : Type :=
| VFloat (x : F)
| VComplex.

Definition vmul (a b : value) : value :=
  match a, b with
  | VFloat x, VFloat y => VFloat (fmul A x y)
  | _, _ => VComplex
  end.

Definition need {X} (o : option X) (e : exn) : res X :=
  match o with
  | Some x => ret x
  | None => raise e
  end.

Definition power_value (p : power F) : res value :=
  match p with
  | PowFloat x => ret (VFloat x)
  | PowComplex => ret VComplex
  | PowOverflow => raise OverflowError
  | PowZeroDivision => raise ZeroDivisionError
  end.

(** [a <= x] and [a < x]: an order comparison of a complex number raises. *)
Definition vle (a : value) (x : F) : res bool :=
  match a with
  | VFloat v => ret (fle A v x)
  | VComplex => raise TypeError
  end.

Definition vlt (a : value) (x : F) : res bool :=
  match a with
  | VFloat v => ret (flt A v x)
  | VComplex => raise TypeError
  end.

Definition Sample : Type := (F * value)%type.
Definition File : Type := list Sample.

Definition io (X : Type) : Type := File -> res X * File.
Definition io_ret {X} (x : X) : io X := fun f => (inr x, f).
Definition io_bind {X Y} (c : io X) (k : X -> io Y) : io Y :=
  fun f =>
    match c f with
    | (inl e, f') => (inl e, f')
    | (inr x, f') => k x f'
    end.
Definition lift {X} (c : res X) : io X := fun f => (c, f).
Definition write (s : Sample) : io unit := fun f => (inr tt, f ++ [s]).

Record Eval : Type := mkEval {
  ev_w : F;
  ev_rg : F;
  ev_cz : value;
  ev_qt : value
}.

Record Track : Type := mkTrack {
  t_bt : F;
  t_qth : value;
  t_rgt : F;
  t_czt : value
}.

Record ResultRecord : Type := mkResult {
  bt : F;
  qth : value;
  rgt : F;
  czt : value;
  cr05 : value
}.

Definition Outcome : Type := (res ResultRecord * option File)%type.

Definition zero : F := flit A 0 1.

Definition track0 : Track := mkTrack zero (VFloat zero) zero (VFloat zero).

Variables (q sl mn nb h : F) (jcz : Z) (b0 : F) (n : Z) (alh : F).

(** Lines 16-23. *)
Definition validate : res unit :=
  if fle A nb zero then raise (ValueError "Barzgarshilt (nb) must be > 0.")
  else if fle A h zero then raise (ValueError "Depth h must be > 0.")
  else if flt A sl zero then raise (ValueError "Slope sl must be >= 0.")
  else if negb ((jcz =? 0) || (jcz =? 1) || (jcz =? 2))%Z
       then raise (ValueError
         "jcz must be 0 (Pawlowski), 1 (Agroskin), or 2 (Manning).")
  else ret tt.

(** Lines 41-48. *)
Definition chezy (rg : F) : res value :=
  (if (jcz =? 0)%Z then
     ay <- (if fle A (flit A 1 1) rg
            then s <- need (fsqrt A nb) domain_error ;;
                 ret (fmul A (flit A 15 10) s)
            else s <- need (fsqrt A nb) domain_error ;;
                 ret (fmul A (flit A 13 10) s)) ;;
     inv <- need (fdiv A (flit A 1 1) nb) ZeroDivisionError ;;
     p <- power_value (fpow A rg ay) ;;
     ret (vmul (VFloat inv) p)
   else if (jcz =? 1)%Z then
     inv <- need (fdiv A (flit A 1 1) nb) ZeroDivisionError ;;
     l <- need (flog10 A (if flt A (flit A 1 1000000000000) rg
                          then rg else flit A 1 1000000000000))
               domain_error ;;
     ret (VFloat (fadd A inv (fmul A (flit A 1772 100) l)))
   else
     inv <- need (fdiv A (flit A 1 1) nb) ZeroDivisionError ;;
     e <- need (fdiv A (flit A 1 1) (flit A 6 1)) ZeroDivisionError ;;
     p <- power_value (fpow A rg e) ;;
     ret (vmul (VFloat inv) p))%res.

(** Lines 34-52.  [mn ** 2] is the float power with exponent 2.0; were its
    result complex, [math.sqrt] would raise TypeError. *)
Definition evaluate (b : F) : res Eval :=
  (let w := fmul A (fadd A b (fmul A mn h)) h in
   p <- power_value (fpow A mn (flit A 2 1)) ;;
   sq <- match p with
         | VFloat x => ret x
         | VComplex => raise TypeError
         end ;;
   s <- need (fsqrt A (fadd A (flit A 1 1) sq)) domain_error ;;
   let ksi := fadd A b (fmul A (fmul A (flit A 2 1) h) s) in
   let ksi := if fle A ksi zero then flit A 1 1000000000000 else ksi in
   rg <- need (fdiv A w ksi) ZeroDivisionError ;;
   cz <- chezy rg ;;
   let rgsl := fmul A rg sl in
   r <- need (fsqrt A (if flt A zero rgsl then rgsl else zero)) domain_error ;;
   let qt := vmul (vmul (VFloat w) cz) (VFloat r) in
   ret (mkEval w rg cz qt))%res.

(** Lines 32-68. *)
Fixpoint search (k : nat) (b : F) (t : Track) : io Track :=
  match k with
  | O => io_ret t
  | S k' =>
      io_bind (lift (evaluate b)) (fun ev =>
      io_bind (write (b, ev_qt ev)) (fun _ =>
      io_bind (lift (vle (ev_qt ev) q)) (fun upd =>
      let t' := if (upd : bool)
                then mkTrack b (ev_qt ev) (ev_rg ev) (ev_cz ev)
                else t in
      io_bind (lift (vlt (ev_qt ev) (fmul A (flit A 12 10) q))) (fun go =>
      if (go : bool) then search k' (fadd A b alh) t' else io_ret t'))))
  end.

(** Lines 70-73. *)
Definition finish (t : Track) : res ResultRecord :=
  (r <- need (fsqrt A (if flt A zero (t_rgt t) then t_rgt t else zero))
             domain_error ;;
   ret (mkResult (t_bt t) (t_qth t) (t_rgt t) (t_czt t)
                 (vmul (t_czt t) (VFloat r))))%res.

(** Lines 11-73. *)
Definition compute_channel : Outcome :=
  match validate with
  | inl e => (inl e, None)
  | inr _ =>
      match search (Z.to_nat n) b0 track0 [] with
      | (inl e, f) => (inl e, Some f)
      | (inr t, f) => (finish t, Some f)
      end
  end.

(** The lines written by [k] iterations from [b], and how they end. *)
Definition trace (k : nat) (b : F) (t : Track) : File := snd (search k b t []).
Definition outcome (k : nat) (b : F) (t : Track) : res Track :=
  fst (search k b t []).

(** The running best after a step with the float discharge [x]. *)
Definition update (t : Track) (b : F) (ev : Eval) (x : F) : Track :=
  if fle A x q then mkTrack b (VFloat x) (ev_rg ev) (ev_cz ev) else t.

(** A well-formed sequence of lines from width [b]: each line holds the
    width of its step and the discharge evaluated there, the next width is
    the float sum of the width and [alh], and a line is followed by another
    only if its discharge is a float for which [qt < 1.2 * q] holds. *)
Fixpoint stepwise (b : F) (l : File) : Prop :=
  match l with
  | [] => True
  | s :: l' =>
      fst s = b /\
      (exists ev, evaluate b = inr ev /\ ev_qt ev = snd s) /\
      (l' <> [] ->
       exists x, snd s = VFloat x /\
                 flt A x (fmul A (flit A 12 10) q) = true) /\
      stepwise (fadd A b alh) l'
  end.

(** The four guards let the parameters through. *)
Definition passes : Prop :=
  fle A nb zero = false /\ fle A h zero = false /\ flt A sl zero = false /\
  (jcz = 0 \/ jcz = 1 \/ jcz = 2)%Z.

(** One of the four guards refuses the parameters. *)
Definition refused : Prop :=
  fle A nb zero = true \/ fle A h zero = true \/ flt A sl zero = true \/
  (jcz <> 0 /\ jcz <> 1 /\ jcz <> 2)%Z.

End Program.

(** The four errors of validation. *)
Definition validation_error (e : exn) : Prop :=
  e = ValueError "Barzgarshilt (nb) must be > 0." \/
  e = ValueError "Depth h must be > 0." \/
  e = ValueError "Slope sl must be >= 0." \/
  e = ValueError "jcz must be 0 (Pawlowski), 1 (Agroskin), or 2 (Manning).".

(** What the arithmetic of a step can raise. *)
Definition arithmetic_error (e : exn) : Prop :=
  e = domain_error \/ e = ZeroDivisionError \/ e = OverflowError \/
  e = TypeError.

End Machine.

(** ** The exact arithmetic *)

(** The real-number model above is the program over exact arithmetic: the
    operations of [R] with Python's errors, none of which overflows. *)

Definition option_of {X} (c : res X) : option X :=
  match c with
  | inr x => Some x
  | inl _ => None
  end.

Definition exact_pow (x y : R) : Machine.power R :=
  match pow x y with
  | inr (PFloat v) => Machine.PowFloat v
  | inr PComplex => Machine.PowComplex
  | inl _ => Machine.PowZeroDivision
  end.

Definition Exact : Machine.Arith :=
  Machine.mkArith R
    (fun n d => IZR n / IZR d)
    Rplus Rmult
    (fun x y => option_of (div x y))
    (fun x => option_of (math_sqrt x))
    (fun x => option_of (math_log10 x))
    exact_pow
    (fun x y => if Rle_dec x y then true else false)
    (fun x y => if Rlt_dec x y then true else false).

(** The data of the real-number model as data of the program over [Exact]. *)
Definition exact_value (v : pyval) : Machine.value Exact :=
  match v with
  | PFloat x => Machine.VFloat Exact x
  | PComplex => Machine.VComplex Exact
  end.

Definition exact_eval (ev : Eval) : Machine.Eval Exact :=
  Machine.mkEval Exact (ev_w ev) (ev_rg ev)
    (exact_value (ev_cz ev)) (exact_value (ev_qt ev)).

Definition exact_track (t : Track) : Machine.Track Exact :=
  Machine.mkTrack Exact (t_bt t) (exact_value (t_qth t)) (t_rgt t)
    (exact_value (t_czt t)).

Definition exact_record (r : ResultRecord) : Machine.ResultRecord Exact :=
  Machine.mkResult Exact (bt r) (exact_value (qth r)) (rgt r)
    (exact_value (czt r)) (exact_value (cr05 r)).

Definition exact_sample (s : Sample) : Machine.Sample Exact :=
  (fst s, exact_value (snd s)).

Definition exact_file (l : File) : Machine.File Exact := map exact_sample l.

Definition res_map {X Y} (f : X -> Y) (c : res X) : res Y :=
  match c with
  | inl e => inl e
  | inr x => inr (f x)
  end.

Definition exact_outcome (o : Outcome) : Machine.Outcome Exact :=
  (res_map exact_record (fst o), option_map exact_file (snd o)).

(** ** The binary64 arithmetic *)

(** The arithmetic of the interpreter: IEEE 754 double precision.  The sum,
    the product, the quotient, the square root and the comparisons are the
    IEEE operations; a decimal literal [n / d] of the program is the
    correctly rounded quotient of two integers that binary64 holds exactly.
    [x ** y] and [math.log10] go through the C library and stay parameters:
    [float_pow] is what [**] does on two floats, [libm_log10] the logarithm
    where [math.log10] does not raise. *)
Section Binary64.

Variable float_pow :
  PrimFloat.float -> PrimFloat.float -> Machine.power PrimFloat.float.
Variable libm_log10 : PrimFloat.float -> PrimFloat.float.

Definition b64_lit (n d : Z) : PrimFloat.float :=
  PrimFloat.div (PrimFloat.of_uint63 (Uint63.of_Z n))
                (PrimFloat.of_uint63 (Uint63.of_Z d)).

(** [x / y] raises for a zero divisor, of either sign. *)
Definition b64_div (x y : PrimFloat.float) : option PrimFloat.float :=
  if PrimFloat.eqb y (b64_lit 0 1) then None else Some (PrimFloat.div x y).

(** [math.sqrt] raises below zero; NaN and [-0.0] pass through. *)
Definition b64_sqrt (x : PrimFloat.float) : option PrimFloat.float :=
  if PrimFloat.ltb x (b64_lit 0 1) then None else Some (PrimFloat.sqrt x).

(** [math.log10] raises at zero and below; NaN passes through. *)
Definition b64_log10 (x : PrimFloat.float) : option PrimFloat.float :=
  if PrimFloat.leb x (b64_lit 0 1) then None else Some (libm_log10 x).

Definition Binary64 : Machine.Arith :=
  Machine.mkArith PrimFloat.float b64_lit PrimFloat.add PrimFloat.mul
    b64_div b64_sqrt b64_log10 float_pow PrimFloat.leb PrimFloat.ltb.

End Binary64.

(** ** The recorded file and its replay *)





Section Replaying.

Variables (q mn nb h : R) (jcz : Z).


End Replaying.


(** ** The command line as argparse leaves it *)

(** Line 111: [parse_args] returns a namespace, or argparse ends the
    program itself: with status 0 after writing the help text ([-h],
    [--help]), with status 2 after an argument it refuses (the message goes
    to the standard error). *)
Inductive parsing : Type :=
| Parsed (a : Namespace)
| HelpShown
| ArgumentRefused.

(** Lines 110-158 with the outcome of line 111. *)
Definition run_main (float_of : string -> option R)
    (int_of : string -> option Z) (p : parsing) (g : gnuplot_state)
    (w : World) : Run :=
  match p with
  | Parsed a => main float_of int_of a g w
  | HelpShown =>
      mkRun (SysExit 0) (mkWorld (stdin w) (stdout w ++ [SayUsage])) None
  | ArgumentRefused => mkRun (SysExit 2) w None
  end.

(** ** Facts about the Python primitives *)

Lemma div_nonzero (x y : R) : y <> 0 -> div x y = inr (x / y).
Proof.
  intros Hy. unfold div. destruct (Req_dec_T y 0); [contradiction | reflexivity].
Qed.

Lemma math_sqrt_nonneg (x : R) : 0 <= x -> math_sqrt x = inr (sqrt x).
Proof.
  intros Hx. unfold math_sqrt. destruct (Rlt_dec x 0); [lra | reflexivity].
Qed.

Lemma math_sqrt_neg (x : R) : x < 0 -> math_sqrt x = inl domain_error.
Proof.
  intros Hx. unfold math_sqrt. destruct (Rlt_dec x 0); [reflexivity | lra].
Qed.

Lemma math_log10_pos (x : R) : 0 < x -> math_log10 x = inr (log10 x).
Proof.
  intros Hx. unfold math_log10. destruct (Rle_dec x 0); [lra | reflexivity].
Qed.

Lemma pow_pos_base (x y : R) : 0 < x -> pow x y = inr (PFloat (Rpower x y)).
Proof.
  intros Hx. unfold pow. destruct (Rlt_dec 0 x); [reflexivity | lra].
Qed.

Lemma pow_zero_base (y : R) : 0 < y -> pow 0 y = inr (PFloat 0).
Proof.
  intros Hy. unfold pow.
  destruct (Rlt_dec 0 0); [lra |].
  destruct (Req_dec_T 0 0); [| lra].
  destruct (Rlt_dec 0 y); [reflexivity | lra].
Qed.

(** With a positive exponent [**] never raises. *)
Lemma pow_pos_exponent (x y : R) : 0 < y -> exists v, pow x y = inr v.
Proof.
  intros Hy. unfold pow.
  destruct (Rlt_dec 0 x); [eexists; reflexivity |].
  destruct (Req_dec_T x 0).
  - destruct (Rlt_dec 0 y); [eexists; reflexivity | lra].
  - destruct (is_integer y); eexists; reflexivity.
Qed.

(** A negative base with a non-integral exponent gives a complex number. *)
Lemma pow_neg_base_complex (x y : R) :
  x < 0 -> (forall k : Z, IZR k <> y) -> pow x y = inr PComplex.
Proof.
  intros Hx Hy. unfold pow.
  destruct (Rlt_dec 0 x); [lra |].
  destruct (Req_dec_T x 0); [lra |].
  unfold is_integer.
  destruct (Req_dec_T (IZR (Int_part y)) y) as [E | _]; [| reflexivity].
  exfalso. exact (Hy _ E).
Qed.

Lemma sixth_not_integer (k : Z) : IZR k <> 1 / 6.
Proof.
  intros E.
  assert (E' : IZR (6 * k) = IZR 1) by (rewrite mult_IZR; lra).
  apply eq_IZR in E'. lia.
Qed.

Lemma Rmax_if_lt (x : R) : (if Rlt_dec 0 x then x else 0) = Rmax x 0.
Proof.
  unfold Rmax. destruct (Rlt_dec 0 x), (Rle_dec x 0); lra.
Qed.

Lemma Rmax_if_eps (x : R) :
  (if Rlt_dec 1e-12 x then x else 1e-12) = Rmax x 1e-12.
Proof.
  unfold Rmax. destruct (Rlt_dec 1e-12 x), (Rle_dec x 1e-12); lra.
Qed.

(** ** The evaluator on validated parameters *)

Section Evaluator.

Variables (sl mn nb h : R) (jcz : Z).
Hypothesis Hvalid : valid sl nb h jcz.

Lemma perimeter_pos (b : R) : 0 < perimeter mn h b.
Proof.
  unfold perimeter. cbv zeta.
  destruct (Rle_dec (b + 2 * h * sqrt (1 + mn ^ 2)) 0); lra.
Qed.

Lemma sqrt_nb_pos : 0 < sqrt nb.
Proof. destruct Hvalid as [Hnb _]. apply sqrt_lt_R0. exact Hnb. Qed.

Lemma exponent_pos (r : R) :
  0 < (if Rle_dec 1 r then 1.5 * sqrt nb else 1.3 * sqrt nb).
Proof. pose proof sqrt_nb_pos. destruct (Rle_dec 1 r); lra. Qed.

(** The guarded calls of the coefficient never raise, and the coefficient is
    the one of the specification. *)
Lemma chezy_coefficient (r : R) : chezy nb jcz r = coefficient nb jcz r.
Proof.
  destruct Hvalid as (Hnb & _ & _ & _).
  unfold chezy, coefficient.
  rewrite (div_nonzero 1 nb) by lra.
  rewrite (math_sqrt_nonneg nb) by lra.
  rewrite Rmax_if_eps.
  rewrite math_log10_pos.
  2:{ unfold Rmax. destruct (Rle_dec r 1e-12); lra. }
  destruct (jcz =? 0)%Z.
  - destruct (Rle_dec 1 r); reflexivity.
  - destruct (jcz =? 1)%Z; reflexivity.
Qed.

Lemma coefficient_total (r : R) : exists c, coefficient nb jcz r = inr c.
Proof.
  unfold coefficient.
  destruct (jcz =? 0)%Z.
  - destruct (pow_pos_exponent r _ (exponent_pos r)) as [v ->].
    eexists; reflexivity.
  - destruct (jcz =? 1)%Z; [eexists; reflexivity |].
    destruct (pow_pos_exponent r (1 / 6)) as [v ->]; [lra |].
    eexists; reflexivity.
Qed.

(** The guarded calls of the evaluator never raise: it computes the area,
    the hydraulic radius, the coefficient and the discharge of the
    specification. *)
Lemma evaluate_spec (b : R) :
  evaluate sl mn nb h jcz b =
  (c <- coefficient nb jcz (hydraulic_radius mn h b) ;;
   ret (mkEval (area mn h b) (hydraulic_radius mn h b) c
          (mul (mul (PFloat (area mn h b)) c)
               (PFloat (sqrt (Rmax (hydraulic_radius mn h b * sl) 0))))))%res.
Proof.
  unfold evaluate. cbv zeta.
  rewrite math_sqrt_nonneg by (pose proof (pow2_ge_0 mn); lra).
  cbn [bind].
  fold (perimeter mn h b).
  rewrite div_nonzero by (pose proof (perimeter_pos b); lra).
  cbn [bind].
  fold (area mn h b). fold (hydraulic_radius mn h b).
  rewrite chezy_coefficient.
  destruct (coefficient nb jcz (hydraulic_radius mn h b)) as [e | c];
    [reflexivity |].
  cbn [bind].
  rewrite Rmax_if_lt.
  rewrite math_sqrt_nonneg by apply Rmax_r.
  reflexivity.
Qed.

Lemma evaluate_total (b : R) : exists ev, evaluate sl mn nb h jcz b = inr ev.
Proof.
  rewrite evaluate_spec.
  destruct (coefficient_total (hydraulic_radius mn h b)) as [c ->].
  eexists; reflexivity.
Qed.

Lemma evaluate_fields (b : R) (ev : Eval) :
  evaluate sl mn nb h jcz b = inr ev ->
  ev_w ev = area mn h b /\
  ev_rg ev = hydraulic_radius mn h b /\
  coefficient nb jcz (hydraulic_radius mn h b) = inr (ev_cz ev) /\
  discharge sl mn nb h jcz b = inr (ev_qt ev).
Proof.
  rewrite evaluate_spec. unfold discharge.
  destruct (coefficient nb jcz (hydraulic_radius mn h b)) as [e | c];
    cbn [bind ret]; [discriminate |].
  intros E. injection E as <-. cbn. auto.
Qed.

(** For a positive hydraulic radius everything is real. *)
Lemma coefficient_real (r : R) :
  0 < r -> coefficient nb jcz r = inr (PFloat (real_coefficient nb jcz r)).
Proof.
  intros Hr. unfold coefficient, real_coefficient.
  rewrite !pow_pos_base by exact Hr.
  destruct (jcz =? 0)%Z; [reflexivity |].
  destruct (jcz =? 1)%Z; reflexivity.
Qed.

Lemma discharge_real (b : R) :
  0 < hydraulic_radius mn h b ->
  discharge sl mn nb h jcz b = inr (PFloat (real_discharge sl mn nb h jcz b)).
Proof.
  intros Hr. unfold discharge, real_discharge.
  rewrite coefficient_real by exact Hr. reflexivity.
Qed.

(** For a hydraulic radius that is not negative the discharge is real. *)
Lemma coefficient_nonneg (r : R) :
  0 <= r -> exists c, coefficient nb jcz r = inr (PFloat c).
Proof.
  intros [Hr | <-].
  - rewrite coefficient_real by exact Hr. eauto.
  - unfold coefficient.
    rewrite (pow_zero_base _ (exponent_pos 0)).
    rewrite (pow_zero_base (1 / 6)) by lra.
    destruct (jcz =? 0)%Z; [cbn; eauto |].
    destruct (jcz =? 1)%Z; cbn; eauto.
Qed.

Lemma discharge_nonneg (b : R) :
  0 <= hydraulic_radius mn h b ->
  exists x, discharge sl mn nb h jcz b = inr (PFloat x).
Proof.
  intros Hr. unfold discharge.
  destruct (coefficient_nonneg _ Hr) as [c ->]. cbn. eauto.
Qed.

End Evaluator.

(** ** The search loop *)

Section Search.

Variables (q sl mn nb h : R) (jcz : Z) (alh : R).

Local Abbreviation eval := (evaluate sl mn nb h jcz).
Local Abbreviation loop := (search q sl mn nb h jcz alh).
Local Abbreviation trace := (trace q sl mn nb h jcz alh).
Local Abbreviation outcome := (outcome q sl mn nb h jcz alh).
Local Abbreviation stepwise := (stepwise q sl mn nb h jcz alh).
Local Abbreviation update := (update q).
Local Abbreviation within := (within q).
Local Abbreviation last_within := (last_within q).
Local Abbreviation track_of := (track_of sl mn nb h jcz).
Local Abbreviation pick := (pick q sl mn nb h jcz).

(** The three ways a step can go. *)
Lemma search_raise (k : nat) (b : R) (t : Track) (f : File) (e : exn) :
  eval b = inl e -> loop (S k) b t f = (inl e, f).
Proof.
  intros E. cbn [search]. unfold io_bind, lift. rewrite E. reflexivity.
Qed.

Lemma search_complex (k : nat) (b : R) (t : Track) (f : File) (ev : Eval) :
  eval b = inr ev -> ev_qt ev = PComplex ->
  loop (S k) b t f = (inl TypeError, f ++ [(b, PComplex)]).
Proof.
  intros E Q. cbn [search]. unfold io_bind, lift, write. rewrite E, Q.
  reflexivity.
Qed.

Lemma search_real (k : nat) (b : R) (t : Track) (f : File) (ev : Eval) (x : R) :
  eval b = inr ev -> ev_qt ev = PFloat x ->
  loop (S k) b t f =
  if Rlt_dec x (1.2 * q)
  then loop k (b + alh) (update t b ev x) (f ++ [(b, PFloat x)])
  else (inr (update t b ev x), f ++ [(b, PFloat x)]).
Proof.
  intros E Q. cbn [search]. unfold io_bind, lift, write, update.
  rewrite E, Q. cbn [le lt ret].
  destruct (Rle_dec x q), (Rlt_dec x (1.2 * q)); reflexivity.
Qed.

(** Case analysis on a step, for the inductions below. *)
Lemma search_cases (k : nat) (b : R) (t : Track) (f : File) :
  (exists e, eval b = inl e /\ loop (S k) b t f = (inl e, f)) \/
  (exists ev, eval b = inr ev /\ ev_qt ev = PComplex /\
     loop (S k) b t f = (inl TypeError, f ++ [(b, PComplex)])) \/
  (exists ev x, eval b = inr ev /\ ev_qt ev = PFloat x /\ x < 1.2 * q /\
     loop (S k) b t f =
     loop k (b + alh) (update t b ev x) (f ++ [(b, PFloat x)])) \/
  (exists ev x, eval b = inr ev /\ ev_qt ev = PFloat x /\ ~ x < 1.2 * q /\
     loop (S k) b t f = (inr (update t b ev x), f ++ [(b, PFloat x)])).
Proof.
  destruct (eval b) as [e | ev] eqn:E.
  - left. exists e. split; [reflexivity | apply search_raise; exact E].
  - right. destruct (ev_qt ev) as [x |] eqn:Q.
    + right. pose proof (search_real k b t f ev x E Q) as S.
      destruct (Rlt_dec x (1.2 * q)).
      * left. exists ev, x. auto.
      * right. exists ev, x. auto.
    + left. exists ev. split; [reflexivity |]. split; [exact Q |].
      apply search_complex with (ev := ev); assumption.
Qed.

(** The lines a run writes are appended to what the file held. *)
Lemma search_appends (k : nat) :
  forall b t f, snd (loop k b t f) = f ++ snd (loop k b t []) /\
                fst (loop k b t f) = fst (loop k b t []).
Proof.
  induction k as [| k IH]; intros b t f.
  - cbn. rewrite app_nil_r. auto.
  - destruct (search_cases k b t f)
      as [(e & E & ->) | [(ev & E & Q & ->) | [(ev & x & E & Q & Hx & ->)
                                              | (ev & x & E & Q & Hx & ->)]]].
    + rewrite (search_raise k b t [] e E). cbn. rewrite app_nil_r. auto.
    + rewrite (search_complex k b t [] ev E Q). cbn. auto.
    + rewrite (search_real k b t [] ev x E Q).
      destruct (Rlt_dec x (1.2 * q)); [| contradiction].
      cbn [app].
      destruct (IH (b + alh) (update t b ev x) (f ++ [(b, PFloat x)])) as [S1 F1].
      destruct (IH (b + alh) (update t b ev x) [(b, PFloat x)]) as [S2 F2].
      rewrite S1, S2, F1, F2, <- app_assoc. auto.
    + rewrite (search_real k b t [] ev x E Q).
      destruct (Rlt_dec x (1.2 * q)); [contradiction |]. cbn. auto.
Qed.

Lemma search_trace_outcome (k : nat) (b : R) (t : Track) (f : File) :
  loop k b t f = (outcome k b t, f ++ trace k b t).
Proof.
  destruct (search_appends k b t f) as [S1 F1]. unfold trace, outcome.
  rewrite <- S1, <- F1. apply surjective_pairing.
Qed.

Lemma run_cases (k : nat) (b : R) (t : Track) :
  (exists e, eval b = inl e /\
     trace (S k) b t = [] /\ outcome (S k) b t = inl e) \/
  (exists ev, eval b = inr ev /\ ev_qt ev = PComplex /\
     trace (S k) b t = [(b, PComplex)] /\ outcome (S k) b t = inl TypeError) \/
  (exists ev x, eval b = inr ev /\ ev_qt ev = PFloat x /\ x < 1.2 * q /\
     trace (S k) b t = (b, PFloat x) :: trace k (b + alh) (update t b ev x) /\
     outcome (S k) b t = outcome k (b + alh) (update t b ev x)) \/
  (exists ev x, eval b = inr ev /\ ev_qt ev = PFloat x /\ ~ x < 1.2 * q /\
     trace (S k) b t = [(b, PFloat x)] /\
     outcome (S k) b t = inr (update t b ev x)).
Proof.
  pose proof (eq_refl : trace (S k) b t = snd (loop (S k) b t [])) as HT.
  pose proof (eq_refl : outcome (S k) b t = fst (loop (S k) b t [])) as HO.
  destruct (search_cases k b t [])
    as [(e & E & L) | [(ev & E & Q & L) | [(ev & x & E & Q & Hx & L)
                                          | (ev & x & E & Q & Hx & L)]]];
    rewrite L in HT, HO.
  - left. exists e. auto.
  - right; left. exists ev. auto.
  - right; right; left. exists ev, x.
    rewrite search_trace_outcome in HT, HO. cbn in HT, HO. auto.
  - right; right; right. exists ev, x. cbn in HT, HO. auto.
Qed.

(** Splits a goal about [S k] iterations into the four ways of [run_cases]. *)
Ltac step_cases k b t :=
  let e := fresh "e" in let ev := fresh "ev" in let x := fresh "x" in
  let E := fresh "E" in let Q := fresh "Q" in let Hx := fresh "Hx" in
  let T := fresh "T" in let O := fresh "O" in
  destruct (run_cases k b t)
    as [(e & E & T & O) | [(ev & E & Q & T & O)
       | [(ev & x & E & Q & Hx & T & O) | (ev & x & E & Q & Hx & T & O)]]];
  rewrite ?T, ?O.

(** At most one line per iteration. *)
Lemma trace_length (k : nat) :
  forall b t, (List.length (trace k b t) <= k)%nat.
Proof.
  induction k as [| k IH]; intros b t.
  - cbn. lia.
  - step_cases k b t; cbn [List.length]; try lia.
    specialize (IH (b + alh) (update t b ev x)). lia.
Qed.

Lemma trace_stepwise (k : nat) :
  forall b t, stepwise b (trace k b t).
Proof.
  induction k as [| k IH]; intros b t.
  - exact I.
  - step_cases k b t; cbn [stepwise fst snd]; auto.
    + repeat split; eauto. intros C; contradiction.
    + repeat split; eauto.
    + repeat split; eauto. intros C; contradiction.
Qed.

Lemma stepwise_width (l : File) :
  forall b i s, stepwise b l -> nth_error l i = Some s ->
                fst s = b + INR i * alh.
Proof.
  induction l as [| s0 l IH]; intros b i s W N.
  - destruct i; discriminate.
  - destruct W as (Hb & _ & _ & W). destruct i as [| i].
    + cbn in N. injection N as <-. cbn. lra.
    + cbn in N. rewrite (IH _ _ _ W N), S_INR. lra.
Qed.

Lemma stepwise_next (l : File) :
  forall b i s s', stepwise b l ->
    nth_error l i = Some s -> nth_error l (S i) = Some s' ->
    fst s' = fst s + alh /\ exists x, snd s = PFloat x /\ x < 1.2 * q.
Proof.
  induction l as [| s0 l IH]; intros b i s s' W N N'.
  - destruct i; discriminate.
  - destruct W as (Hb & _ & Hgo & W). destruct i as [| i].
    + cbn in N, N'. injection N as <-. split.
      * rewrite (stepwise_width l (b + alh) 0%nat s' W N'), Hb. cbn. lra.
      * apply Hgo. intros ->. discriminate.
    + cbn in N, N'. exact (IH _ _ _ _ W N N').
Qed.

Lemma stepwise_evaluated (l : File) :
  forall b s, stepwise b l -> In s l ->
              exists ev, eval (fst s) = inr ev /\ ev_qt ev = snd s.
Proof.
  induction l as [| s0 l IH]; intros b s W I; [contradiction |].
  destruct W as (Hb & Hev & _ & W). destruct I as [<- | I].
  - rewrite Hb. exact Hev.
  - exact (IH _ _ W I).
Qed.

Lemma pick_cons (t : Track) (b x : R) (ev : Eval) (l : File) :
  eval b = inr ev ->
  pick t ((b, PFloat x) :: l) = pick (update t b ev x) l.
Proof.
  intros E. unfold pick, update. cbn [last_within].
  destruct (last_within l) as [s' |]; [reflexivity |].
  unfold within. cbn [snd].
  destruct (Rle_dec x q); [| reflexivity].
  unfold track_of. cbn [fst snd]. rewrite E. reflexivity.
Qed.

(** A run that returns, returns the selection over the lines it wrote. *)
Lemma outcome_pick (k : nat) :
  forall b t t', outcome k b t = inr t' -> t' = pick t (trace k b t).
Proof.
  induction k as [| k IH]; intros b t t'.
  - cbn. intros E. injection E as <-. reflexivity.
  - step_cases k b t; intros R; try discriminate.
    + rewrite (pick_cons t b x ev _ E). exact (IH _ _ _ R).
    + injection R as <-. rewrite (pick_cons t b x ev _ E). reflexivity.
Qed.

(** A run that returns has printed real discharges only. *)
Lemma outcome_real (k : nat) :
  forall b t t' s, outcome k b t = inr t' -> In s (trace k b t) ->
                   exists x, snd s = PFloat x.
Proof.
  induction k as [| k IH]; intros b t t' s.
  - cbn. intros _ [].
  - step_cases k b t; intros R I; try discriminate.
    + destruct I as [<- | I]; [exists x; reflexivity | exact (IH _ _ _ _ R I)].
    + destruct I as [<- | []]. exists x; reflexivity.
Qed.

(** A run raises only by evaluating, or by comparing a complex discharge,
    which is then on the last line written. *)
Lemma outcome_raise (k : nat) :
  forall b t e, outcome k b t = inl e ->
    (exists b', eval b' = inl e) \/
    (e = TypeError /\ exists b' l, trace k b t = l ++ [(b', PComplex)]).
Proof.
  induction k as [| k IH]; intros b t e'.
  - cbn. discriminate.
  - step_cases k b t; intros R; try discriminate.
    + injection R as <-. left. eauto.
    + injection R as <-. right. split; [reflexivity |].
      exists b, []. reflexivity.
    + destruct (IH _ _ _ R) as [L | (-> & b' & l & T')]; [left; exact L |].
      right. split; [reflexivity |].
      exists b', ((b, PFloat x) :: l). rewrite T'. reflexivity.
Qed.

(** After a real discharge below [1.2 * q] the loop goes on at the next
    width while iterations remain, provided the evaluator does not raise
    there; after any other real discharge it has stopped. *)
Lemma trace_continues (k : nat) :
  forall b t i bi x,
    (forall b', exists ev, eval b' = inr ev) ->
    nth_error (trace k b t) i = Some (bi, PFloat x) ->
    x < 1.2 * q -> (S i < k)%nat ->
    exists qt, nth_error (trace k b t) (S i) = Some (bi + alh, qt).
Proof.
  induction k as [| k IH]; intros b t i bi y Tot N Hy Hi; [lia |].
  step_cases k b t; rewrite ?T in N.
  - destruct i; discriminate.
  - destruct i as [| [| i]]; discriminate.
  - destruct i as [| i].
    + cbn in N. injection N as <- <-. cbn [nth_error].
      destruct k as [| k]; [lia |].
      destruct (run_cases k (b + alh) (update t b ev x))
        as [(e & E' & _) | [(ev' & _ & _ & T' & _)
           | [(ev' & x' & _ & _ & _ & T' & _) | (ev' & x' & _ & _ & _ & T' & _)]]];
        try (rewrite T'; cbn; eauto).
      destruct (Tot (b + alh)) as [ev' E'']. congruence.
    + cbn in N. cbn [nth_error]. apply (IH _ _ _ _ _ Tot N Hy). lia.
  - destruct i as [| [| i]]; try discriminate.
    cbn in N. injection N as <- <-. contradiction.
Qed.


End Search.

(** ** Generic facts about well-formed sample sequences *)

Section Stepwise.

Variables (q sl mn nb h : R) (jcz : Z) (alh : R).

Local Abbreviation eval := (evaluate sl mn nb h jcz).
Local Abbreviation wf := (stepwise q sl mn nb h jcz alh).

(** A line whose discharge is not a real number below [1.2 * q] is the
    last one. *)
Lemma stepwise_last (l : File) (b : R) (i : nat) (s : Sample) :
  wf b l -> nth_error l i = Some s ->
  (forall x, snd s = PFloat x -> ~ x < 1.2 * q) ->
  List.length l = S i.
Proof.
  intros W N Stop.
  assert (Hi : (i < List.length l)%nat)
    by (apply nth_error_Some; rewrite N; discriminate).
  destruct (nth_error l (S i)) as [s' |] eqn:N'.
  - destruct (stepwise_next _ _ _ _ _ _ _ l b i s s' W N N') as (_ & x & Q & Hx).
    exfalso. exact (Stop x Q Hx).
  - apply nth_error_None in N'. lia.
Qed.

(** With a non-negative step no line has a width below the first. *)
Lemma stepwise_lower (l : File) (b : R) (s : Sample) :
  0 <= alh -> wf b l -> In s l -> b <= fst s.
Proof.
  intros Ha W I. apply In_nth_error in I. destruct I as [i N].
  rewrite (stepwise_width _ _ _ _ _ _ _ l b i s W N).
  pose proof (pos_INR i). nra.
Qed.

Lemma last_within_in (l : File) (s : Sample) :
  last_within q l = Some s -> In s l /\ within q s = true.
Proof.
  induction l as [| s0 l IH]; cbn [last_within]; [discriminate |].
  destruct (last_within q l) as [s' |].
  - intros E. injection E as ->. destruct (IH eq_refl). split; [right |]; auto.
  - destruct (within q s0) eqn:W; [| discriminate].
    intros E. injection E as ->. split; [left; reflexivity | exact W].
Qed.

Lemma last_within_none (l : File) :
  (forall s, In s l -> within q s = false) -> last_within q l = None.
Proof.
  induction l as [| s0 l IH]; intros Hno; [reflexivity |].
  cbn [last_within]. rewrite IH by (intros s I; apply Hno; right; exact I).
  rewrite (Hno s0) by (left; reflexivity). reflexivity.
Qed.

(** With a non-negative step the last sample within the target is also the
    widest one within the target. *)
Lemma last_within_widest (l : File) :
  forall b s, 0 <= alh -> wf b l -> last_within q l = Some s ->
    forall s', In s' l -> within q s' = true -> fst s' <= fst s.
Proof.
  induction l as [| s0 l IH]; intros b s Ha W L s' I' W'; [contradiction |].
  destruct W as (Hb & _ & _ & W). cbn [last_within] in L.
  destruct (last_within q l) as [s1 |] eqn:L1.
  - injection L as ->. destruct I' as [<- | I'].
    + destruct (last_within_in l s L1) as [I _].
      pose proof (stepwise_lower l (b + alh) s Ha W I). lra.
    + exact (IH _ _ Ha W eq_refl s' I' W').
  - destruct (within q s0) eqn:W0; [| discriminate]. injection L as ->.
    destruct I' as [<- | I']; [lra |].
    assert (Hnone : within q s' = false); [| congruence].
    clear - L1 I'. induction l as [| s1 l IH]; [contradiction |].
    cbn [last_within] in L1. destruct (last_within q l) as [s2 |]; [discriminate |].
    destruct (within q s1) eqn:W1; [discriminate |].
    destruct I' as [<- | I']; [exact W1 | exact (IH eq_refl I')].
Qed.

End Stepwise.

(** ** The whole function *)

Section Whole.

Variables (q sl mn nb h : R) (jcz : Z) (b0 : R) (n : Z) (alh : R).

Local Abbreviation run := (compute_channel q sl mn nb h jcz b0 n alh).
Local Abbreviation lines :=
  (trace q sl mn nb h jcz alh (Z.to_nat n) b0 track0).
Local Abbreviation ending :=
  (outcome q sl mn nb h jcz alh (Z.to_nat n) b0 track0).
Local Abbreviation invalid := (invalid sl nb h jcz).

Lemma valid_or_invalid : valid sl nb h jcz \/ invalid.
Proof.
  unfold valid, invalid.
  destruct (Rle_dec nb 0); [right; auto |].
  destruct (Rle_dec h 0); [right; auto |].
  destruct (Rlt_dec sl 0); [right; auto |].
  destruct (Z.eq_dec jcz 0); [left; repeat split; auto; lra |].
  destruct (Z.eq_dec jcz 1); [left; repeat split; auto; lra |].
  destruct (Z.eq_dec jcz 2); [left; repeat split; auto; lra |].
  right. auto 6.
Qed.

Lemma validate_valid : valid sl nb h jcz -> validate sl nb h jcz = inr tt.
Proof.
  intros (Hnb & Hh & Hsl & Hj). unfold validate.
  destruct (Rle_dec nb 0); [lra |].
  destruct (Rle_dec h 0); [lra |].
  destruct (Rlt_dec sl 0); [lra |].
  destruct Hj as [-> | [-> | ->]]; reflexivity.
Qed.

Lemma validate_invalid :
  invalid ->
  exists msg, msg <> EmptyString /\ validate sl nb h jcz = inl (ValueError msg).
Proof.
  intros Hinv. unfold validate.
  destruct (Rle_dec nb 0); [eexists; split; [| reflexivity]; discriminate |].
  destruct (Rle_dec h 0); [eexists; split; [| reflexivity]; discriminate |].
  destruct (Rlt_dec sl 0); [eexists; split; [| reflexivity]; discriminate |].
  destruct Hinv as [H1 | [H1 | [H1 | (H0 & H1 & H2)]]]; try lra.
  apply Z.eqb_neq in H0, H1, H2. rewrite H0, H1, H2. cbn.
  eexists; split; [| reflexivity]; discriminate.
Qed.

(** The guarded square root of the last line never raises. *)
Lemma finish_spec (t : Track) :
  finish t = inr (mkResult (t_bt t) (t_qth t) (t_rgt t) (t_czt t)
                    (mul (t_czt t) (PFloat (sqrt (Rmax (t_rgt t) 0))))).
Proof.
  unfold finish. rewrite Rmax_if_lt.
  rewrite math_sqrt_nonneg by apply Rmax_r. reflexivity.
Qed.

(** On validated parameters the call opens the file and runs the loop. *)
Lemma compute_channel_valid :
  valid sl nb h jcz -> run = (bind ending finish, Some lines).
Proof.
  intros Hv. unfold compute_channel. rewrite (validate_valid Hv).
  unfold trace, outcome.
  destruct (search q sl mn nb h jcz alh (Z.to_nat n) b0 track0 []) as [[e | t] f];
    reflexivity.
Qed.

Lemma compute_channel_invalid :
  invalid ->
  exists msg, msg <> EmptyString /\ run = (inl (ValueError msg), None).
Proof.
  intros Hinv. destruct (validate_invalid Hinv) as (msg & Hmsg & E).
  exists msg. split; [exact Hmsg |]. unfold compute_channel. rewrite E.
  reflexivity.
Qed.

(** A call that opened the file had validated parameters. *)
Lemma opened_valid (r : res ResultRecord) (l : File) :
  run = (r, Some l) -> valid sl nb h jcz.
Proof.
  intros E. destruct valid_or_invalid as [Hv | Hinv]; [exact Hv |].
  destruct (compute_channel_invalid Hinv) as (msg & _ & E'). congruence.
Qed.

(** What a returning call returns and leaves in the file. *)
Lemma returned (r : ResultRecord) (l : File) :
  run = (inr r, Some l) ->
  valid sl nb h jcz /\ l = lines /\
  exists t, ending = inr t /\ finish t = inr r.
Proof.
  intros E. pose proof (opened_valid _ _ E) as Hv. split; [exact Hv |].
  rewrite (compute_channel_valid Hv) in E. injection E as E1 E2.
  split; [congruence |].
  destruct ending as [e | t]; [discriminate |]. exists t. auto.
Qed.

End Whole.

(** ** A family of concrete runs: Agroskin formula on a flat bed

    With slope 0 the discharge is 0 at every width, and the Agroskin
    coefficient involves no power, so these runs can be traced by hand. *)

Section AgroskinFlat.

Variables (q mn nb h alh : R).
Hypotheses (Hq : 0 < q) (Hnb : 0 < nb) (Hh : 0 < h).

Local Abbreviation flat_lines := (flat_lines alh).

Lemma agroskin_flat_valid : valid 0 nb h 1.
Proof. unfold valid. repeat split; auto; lra. Qed.

Lemma agroskin_flat_evaluate (b : R) :
  evaluate 0 mn nb h 1 b =
  inr (mkEval (area mn h b) (hydraulic_radius mn h b)
         (PFloat (real_coefficient nb 1 (hydraulic_radius mn h b)))
         (PFloat 0)).
Proof.
  rewrite (evaluate_spec 0 mn nb h 1 agroskin_flat_valid).
  unfold coefficient, real_coefficient. cbn [Z.eqb Pos.eqb bind ret mul].
  rewrite Rmult_0_r.
  replace (Rmax 0 0) with 0
    by (unfold Rmax; destruct (Rle_dec 0 0); reflexivity).
  rewrite sqrt_0, Rmult_0_r. reflexivity.
Qed.

Lemma agroskin_flat_trace (k : nat) :
  forall b t,
    trace q 0 mn nb h 1 alh k b t = flat_lines k b /\
    exists t', outcome q 0 mn nb h 1 alh k b t = inr t'.
Proof.
  induction k as [| k IH]; intros b t.
  - split; [reflexivity | eexists; reflexivity].
  - pose proof (agroskin_flat_evaluate b) as Ev.
    destruct (run_cases q 0 mn nb h 1 alh k b t)
      as [(e & E & _) | [(ev & E & Q & _)
         | [(ev & x & E & Q & Hx & T & O) | (ev & x & E & Q & Hx & _)]]];
      rewrite Ev in E; try discriminate; injection E as <-; cbn in Q;
      try discriminate; injection Q as <-.
    + destruct (IH (b + alh)
                  (update q t b
                     (mkEval (area mn h b) (hydraulic_radius mn h b)
                        (PFloat (real_coefficient nb 1 (hydraulic_radius mn h b)))
                        (PFloat 0)) 0)) as [T' O'].
      rewrite T, O, T'. split; [reflexivity | exact O'].
    + exfalso. apply Hx. lra.
Qed.

Lemma agroskin_flat_run (b0 : R) (n : Z) :
  exists r,
    compute_channel q 0 mn nb h 1 b0 n alh =
    (inr r, Some (flat_lines (Z.to_nat n) b0)).
Proof.
  rewrite (compute_channel_valid q 0 mn nb h 1 b0 n alh agroskin_flat_valid).
  destruct (agroskin_flat_trace (Z.to_nat n) b0 track0) as [-> [t ->]].
  cbn [bind]. rewrite finish_spec. eexists; reflexivity.
Qed.

End AgroskinFlat.

(** ** What a returning call returns *)

Lemma finish_track0 : finish track0 = inr zero_record.
Proof.
  rewrite finish_spec. unfold zero_record, track0. cbn.
  rewrite Rmult_0_l. reflexivity.
Qed.

Lemma last_within_some (q : R) (l : File) (s0 : Sample) :
  In s0 l -> within q s0 = true -> exists s, last_within q l = Some s.
Proof.
  intros I W. destruct (last_within q l) as [s |] eqn:L; [eauto |].
  exfalso. revert I L. induction l as [| s1 l IH]; [contradiction |].
  cbn [last_within]. destruct (last_within q l) as [s2 |]; [discriminate |].
  destruct (within q s1) eqn:W1; [discriminate |].
  intros [<- | I] _; [congruence | exact (IH I eq_refl)].
Qed.

Section Returned.

Variables (q sl mn nb h : R) (jcz : Z) (b0 : R) (n : Z) (alh : R).
Variables (r : ResultRecord) (l : File).
Hypothesis Hrun : compute_channel q sl mn nb h jcz b0 n alh = (inr r, Some l).

Lemma returned_valid : valid sl nb h jcz.
Proof. exact (opened_valid _ _ _ _ _ _ _ _ _ _ _ Hrun). Qed.

Lemma returned_stepwise : stepwise q sl mn nb h jcz alh b0 l.
Proof.
  destruct (returned _ _ _ _ _ _ _ _ _ _ _ Hrun) as (_ & -> & _).
  apply trace_stepwise.
Qed.

Lemma returned_pick : finish (pick q sl mn nb h jcz track0 l) = inr r.
Proof.
  destruct (returned _ _ _ _ _ _ _ _ _ _ _ Hrun) as (_ & -> & t & O & F).
  rewrite <- (outcome_pick _ _ _ _ _ _ _ _ _ _ _ O). exact F.
Qed.

(** With no sample within the target the record is all zero. *)
Lemma returned_none : last_within q l = None -> r = zero_record.
Proof.
  intros L. pose proof returned_pick as F. unfold pick in F. rewrite L in F.
  rewrite finish_track0 in F. congruence.
Qed.

(** Otherwise it holds the last sample within the target, and what the
    evaluator gives at its width. *)
Lemma returned_some (s : Sample) :
  last_within q l = Some s ->
  bt r = fst s /\ qth r = snd s /\
  discharge sl mn nb h jcz (bt r) = inr (qth r) /\
  rgt r = hydraulic_radius mn h (bt r) /\
  coefficient nb jcz (rgt r) = inr (czt r) /\
  cr05 r = mul (czt r) (PFloat (sqrt (Rmax (rgt r) 0))).
Proof.
  intros L. pose proof returned_pick as F. unfold pick in F. rewrite L in F.
  destruct (last_within_in q l s L) as [I _].
  destruct (stepwise_evaluated _ _ _ _ _ _ _ _ _ _ returned_stepwise I)
    as (ev & Ev & Q).
  destruct (evaluate_fields sl mn nb h jcz returned_valid _ ev Ev)
    as (_ & Hrg & Hcz & Hqt).
  unfold track_of in F. rewrite Ev, finish_spec in F. injection F as <-.
  cbn [bt qth rgt czt cr05 t_bt t_qth t_rgt t_czt].
  rewrite Hrg, <- Q. auto 6.
Qed.

End Returned.

(** Two concrete geometries, vertical banks ([mn = 0]) and depth 1. *)
Lemma sqrt_one_plus_zero : sqrt (1 + 0 ^ 2) = 1.
Proof. replace (1 + 0 ^ 2) with 1 by lra. exact sqrt_1. Qed.

Lemma radius_at_minus_one : hydraulic_radius 0 1 (-1) = -1.
Proof.
  unfold hydraulic_radius, area, perimeter. cbv zeta.
  rewrite sqrt_one_plus_zero.
  destruct (Rle_dec (-1 + 2 * 1 * 1) 0); [lra | field].
Qed.

(** ** What a call on validated parameters can raise *)

Section Faults.

Variables (q sl mn nb h : R) (jcz : Z) (b0 : R) (n : Z) (alh : R).
Hypothesis Hvalid : valid sl nb h jcz.

(** The only exception is the TypeError of comparing a complex discharge,
    whose line is the last one written. *)
Lemma raises_only_on_complex (e : exn) (f : option File) :
  compute_channel q sl mn nb h jcz b0 n alh = (inl e, f) ->
  e = TypeError /\
  exists i l,
    (i < Z.to_nat n)%nat /\
    f = Some (l ++ [(b0 + INR i * alh, PComplex)]) /\
    discharge sl mn nb h jcz (b0 + INR i * alh) = inr PComplex.
Proof.
  rewrite (compute_channel_valid q sl mn nb h jcz b0 n alh Hvalid).
  pose proof (trace_stepwise q sl mn nb h jcz alh (Z.to_nat n) b0 track0) as W.
  pose proof (trace_length q sl mn nb h jcz alh (Z.to_nat n) b0 track0) as Len.
  destruct (outcome q sl mn nb h jcz alh (Z.to_nat n) b0 track0)
    as [e' | t] eqn:O; cbn [bind]; [| rewrite finish_spec; discriminate].
  intros E. injection E as <- <-.
  destruct (outcome_raise _ _ _ _ _ _ _ _ _ _ _ O)
    as [(b' & E) | (-> & b' & l & T)].
  - destruct (evaluate_total sl mn nb h jcz Hvalid b') as [ev E']. congruence.
  - split; [reflexivity |]. rewrite T in W, Len |- *.
    assert (N : nth_error (l ++ [(b', PComplex)]) (List.length l)
                = Some (b', PComplex)).
    { rewrite nth_error_app2 by lia. rewrite Nat.sub_diag. reflexivity. }
    pose proof (stepwise_width _ _ _ _ _ _ _ _ _ _ _ W N) as Hb.
    cbn [fst] in Hb. subst b'.
    exists (List.length l), l. rewrite length_app in Len. cbn in Len.
    split; [lia |]. split; [reflexivity |].
    destruct (stepwise_evaluated _ _ _ _ _ _ _ _ _ _ W
                (nth_error_In _ _ N)) as (ev & Ev & Q).
    destruct (evaluate_fields sl mn nb h jcz Hvalid _ ev Ev) as (_ & _ & _ & D).
    rewrite Q in D. exact D.
Qed.

(** A call whose hydraulic radius is negative at none of its widths
    returns. *)
Lemma returns_on_nonneg_radius :
  (forall i, (i < Z.to_nat n)%nat ->
             0 <= hydraulic_radius mn h (b0 + INR i * alh)) ->
  exists r l, compute_channel q sl mn nb h jcz b0 n alh = (inr r, Some l).
Proof.
  intros Hr.
  destruct (compute_channel q sl mn nb h jcz b0 n alh) as [[e | r] f] eqn:E.
  - destruct (raises_only_on_complex e f E) as (_ & i & l & Hi & _ & D).
    destruct (discharge_nonneg sl mn nb h jcz Hvalid _ (Hr i Hi)) as [x D'].
    congruence.
  - rewrite (compute_channel_valid q sl mn nb h jcz b0 n alh Hvalid) in E.
    injection E as _ <-. eauto.
Qed.

End Faults.

(** * The program over an arbitrary arithmetic: the loop *)

Section MachineLoop.

Variable A : Machine.Arith.
Variables (q sl mn nb h : Machine.carrier A) (jcz : Z) (alh : Machine.carrier A).

Local Abbreviation F := (Machine.carrier A).
Local Abbreviation eval := (Machine.evaluate A sl mn nb h jcz).
Local Abbreviation loop := (Machine.search A q sl mn nb h jcz alh).
Local Abbreviation trace := (Machine.trace A q sl mn nb h jcz alh).
Local Abbreviation outcome := (Machine.outcome A q sl mn nb h jcz alh).
Local Abbreviation update := (Machine.update A q).
Local Abbreviation stepwise := (Machine.stepwise A q sl mn nb h jcz alh).
Local Abbreviation limit := (Machine.fmul A (Machine.flit A 12 10) q).
Local Abbreviation VFloat := (Machine.VFloat A).
Local Abbreviation VComplex := (Machine.VComplex A).

Lemma m_search_cases (k : nat) (b : F) (t : Machine.Track A) (f : Machine.File A) :
  (exists e, eval b = inl e /\ loop (S k) b t f = (inl e, f)) \/
  (exists ev, eval b = inr ev /\ Machine.ev_qt A ev = VComplex /\
     loop (S k) b t f = (inl TypeError, f ++ [(b, VComplex)])) \/
  (exists ev x, eval b = inr ev /\ Machine.ev_qt A ev = VFloat x /\
     Machine.flt A x limit = true /\
     loop (S k) b t f =
     loop k (Machine.fadd A b alh) (update t b ev x) (f ++ [(b, VFloat x)])) \/
  (exists ev x, eval b = inr ev /\ Machine.ev_qt A ev = VFloat x /\
     Machine.flt A x limit = false /\
     loop (S k) b t f = (inr (update t b ev x), f ++ [(b, VFloat x)])).
Proof.
  cbn [Machine.search].
  unfold Machine.io_bind, Machine.lift, Machine.write, Machine.update.
  destruct (eval b) as [e | ev] eqn:E.
  - left. exists e. auto.
  - right. destruct (Machine.ev_qt A ev) as [x |] eqn:Q.
    + right. cbn [Machine.vle Machine.vlt ret].
      destruct (Machine.flt A x limit) eqn:Hlt.
      * left. exists ev, x. repeat split; auto;
          destruct (Machine.fle A x q); reflexivity.
      * right. exists ev, x. repeat split; auto;
          destruct (Machine.fle A x q); reflexivity.
    + left. exists ev. cbn. auto.
Qed.

Lemma m_search_appends (k : nat) :
  forall b t f, loop k b t f = (outcome k b t, f ++ trace k b t).
Proof.
  unfold Machine.trace, Machine.outcome.
  induction k as [| k IH]; intros b t f.
  - cbn. rewrite app_nil_r. reflexivity.
  - cbn [Machine.search].
    unfold Machine.io_bind, Machine.lift, Machine.write.
    destruct (eval b) as [e | ev]; [cbn; rewrite app_nil_r; reflexivity |].
    destruct (Machine.ev_qt A ev) as [x |];
      cbn [Machine.vle Machine.vlt ret app]; [| reflexivity].
    destruct (Machine.flt A x limit); [| reflexivity].
    rewrite (IH _ _ (f ++ [(b, VFloat x)])), (IH _ _ [(b, VFloat x)]).
    cbn [fst snd]. rewrite <- app_assoc. reflexivity.
Qed.

Lemma m_run_cases (k : nat) (b : F) (t : Machine.Track A) :
  (exists e, eval b = inl e /\
     trace (S k) b t = [] /\ outcome (S k) b t = inl e) \/
  (exists ev, eval b = inr ev /\ Machine.ev_qt A ev = VComplex /\
     trace (S k) b t = [(b, VComplex)] /\ outcome (S k) b t = inl TypeError) \/
  (exists ev x, eval b = inr ev /\ Machine.ev_qt A ev = VFloat x /\
     Machine.flt A x limit = true /\
     trace (S k) b t =
     (b, VFloat x) :: trace k (Machine.fadd A b alh) (update t b ev x) /\
     outcome (S k) b t = outcome k (Machine.fadd A b alh) (update t b ev x)) \/
  (exists ev x, eval b = inr ev /\ Machine.ev_qt A ev = VFloat x /\
     Machine.flt A x limit = false /\
     trace (S k) b t = [(b, VFloat x)] /\
     outcome (S k) b t = inr (update t b ev x)).
Proof.
  pose proof (eq_refl : trace (S k) b t = snd (loop (S k) b t [])) as HT.
  pose proof (eq_refl : outcome (S k) b t = fst (loop (S k) b t [])) as HO.
  destruct (m_search_cases k b t [])
    as [(e & E & L) | [(ev & E & Q & L) | [(ev & x & E & Q & Hx & L)
                                          | (ev & x & E & Q & Hx & L)]]];
    rewrite L in HT, HO.
  - left. exists e. auto.
  - right; left. exists ev. auto.
  - right; right; left. exists ev, x.
    rewrite m_search_appends in HT, HO. cbn in HT, HO. auto 6.
  - right; right; right. exists ev, x. cbn in HT, HO. auto 6.
Qed.

Ltac m_step_cases k b t :=
  let e := fresh "e" in let ev := fresh "ev" in let x := fresh "x" in
  let E := fresh "E" in let Q := fresh "Q" in let Hx := fresh "Hx" in
  let T := fresh "T" in let O := fresh "O" in
  destruct (m_run_cases k b t)
    as [(e & E & T & O) | [(ev & E & Q & T & O)
       | [(ev & x & E & Q & Hx & T & O) | (ev & x & E & Q & Hx & T & O)]]];
  rewrite ?T, ?O.

Lemma m_trace_length (k : nat) :
  forall b t, (List.length (trace k b t) <= k)%nat.
Proof.
  induction k as [| k IH]; intros b t.
  - cbn. lia.
  - m_step_cases k b t; cbn [List.length]; try lia.
    specialize (IH (Machine.fadd A b alh) (update t b ev x)). lia.
Qed.

Lemma m_trace_stepwise (k : nat) :
  forall b t, stepwise b (trace k b t).
Proof.
  induction k as [| k IH]; intros b t.
  - exact I.
  - m_step_cases k b t; cbn [Machine.stepwise fst snd]; auto;
      repeat split; eauto; try (intros C; exfalso; apply C; reflexivity).
Qed.

Lemma m_stepwise_first (l : Machine.File A) (b : F) (s : Machine.Sample A) :
  stepwise b l -> nth_error l 0 = Some s -> fst s = b.
Proof.
  destruct l as [| s0 l]; [discriminate |].
  intros (Hb & _) N. cbn in N. injection N as <-. exact Hb.
Qed.

Lemma m_stepwise_next (l : Machine.File A) :
  forall b i s s', stepwise b l ->
    nth_error l i = Some s -> nth_error l (S i) = Some s' ->
    fst s' = Machine.fadd A (fst s) alh /\
    exists x, snd s = VFloat x /\ Machine.flt A x limit = true.
Proof.
  induction l as [| s0 l IH]; intros b i s s' W N N'.
  - destruct i; discriminate.
  - destruct W as (Hb & _ & Hgo & W). destruct i as [| i].
    + cbn in N, N'. injection N as <-. split.
      * rewrite Hb. exact (m_stepwise_first l _ s' W N').
      * apply Hgo. intros ->. discriminate.
    + cbn in N, N'. exact (IH _ _ _ _ W N N').
Qed.

Lemma m_stepwise_evaluated (l : Machine.File A) :
  forall b s, stepwise b l -> In s l ->
              exists ev, eval (fst s) = inr ev /\ Machine.ev_qt A ev = snd s.
Proof.
  induction l as [| s0 l IH]; intros b s W I; [contradiction |].
  destruct W as (Hb & Hev & _ & W). destruct I as [<- | I].
  - rewrite Hb. exact Hev.
  - exact (IH _ _ W I).
Qed.

(** What a run does after each of its lines. *)
Lemma m_line_fate (k : nat) :
  forall b t i bi qt,
    nth_error (trace k b t) i = Some (bi, qt) ->
    match qt with
    | Machine.VComplex _ =>
        List.length (trace k b t) = S i /\ outcome k b t = inl TypeError
    | Machine.VFloat _ x =>
        if Machine.flt A x limit then
          (S i < k)%nat /\
          ((exists qt', nth_error (trace k b t) (S i)
                        = Some (Machine.fadd A bi alh, qt')) \/
           (List.length (trace k b t) = S i /\
            exists e, eval (Machine.fadd A bi alh) = inl e /\
                      outcome k b t = inl e)) \/
          S i = k /\ List.length (trace k b t) = k /\
          exists t', outcome k b t = inr t'
        else
          List.length (trace k b t) = S i /\ exists t', outcome k b t = inr t'
    end.
Proof.
  induction k as [| k IH]; intros b t i bi qt N.
  - destruct i; discriminate.
  - m_step_cases k b t; rewrite ?T in N.
    + destruct i; discriminate.
    + destruct i as [| [| i]]; try discriminate.
      cbn in N. injection N as <- <-. auto.
    + destruct i as [| i].
      * cbn in N. injection N as <- <-. rewrite Hx.
        destruct k as [| k].
        -- right. cbn. split; [reflexivity |]. split; [reflexivity |].
           eexists; reflexivity.
        -- left. split; [lia |].
           destruct (m_run_cases k (Machine.fadd A b alh) (update t b ev x))
             as [(e' & E' & T' & O') | [(ev' & _ & _ & T' & _)
                | [(ev' & x' & _ & _ & _ & T' & _) | (ev' & x' & _ & _ & _ & T' & _)]]];
             rewrite T'; cbn [nth_error List.length]; eauto;
             right; rewrite ?O'; eauto.
      * cbn [nth_error] in N. specialize (IH _ _ _ _ _ N).
        cbn [List.length nth_error].
        destruct qt as [y |].
        -- destruct (Machine.flt A y limit).
           ++ destruct IH as [(Hi & IH) | (Hi & Hl & IH)].
              ** left. split; [lia |].
                 destruct IH as [IH | (Hl & IH)]; [left; exact IH |].
                 right. split; [lia | exact IH].
              ** right. repeat split; auto; lia.
           ++ destruct IH as [Hl IH]. split; [lia | exact IH].
        -- destruct IH as [Hl IH]. split; [lia | exact IH].
    + destruct i as [| [| i]]; try discriminate.
      cbn in N. injection N as <- <-. rewrite Hx. split; [reflexivity |].
      eexists; reflexivity.
Qed.

(** A run that returns before its budget is used up has written, last, a
    float discharge for which [qt < 1.2 * q] is false. *)
Lemma m_early_return (k : nat) :
  forall b t t',
    outcome k b t = inr t' -> (List.length (trace k b t) < k)%nat ->
    exists l b' x, trace k b t = l ++ [(b', VFloat x)] /\
                   Machine.flt A x limit = false.
Proof.
  induction k as [| k IH]; intros b t t' O Len; [cbn in Len; lia |].
  destruct (m_run_cases k b t)
    as [(e & _ & _ & O') | [(ev & _ & _ & _ & O')
       | [(ev & x & _ & _ & _ & T & O') | (ev & x & _ & _ & Hx & T & _)]]];
    try congruence.
  - rewrite O' in O. rewrite T in Len |- *. cbn [List.length] in Len.
    destruct (IH _ _ _ O ltac:(lia)) as (l & b' & y & -> & Hy).
    exists ((b, VFloat x) :: l), b', y. auto.
  - rewrite T. exists [], b, x. auto.
Qed.

(** What the loop raises comes from the arithmetic of a step. *)
Lemma m_need_raises {X} (o : option X) (e e' : exn) :
  Machine.need o e = inl e' -> e' = e.
Proof. destruct o; unfold Machine.need, ret, raise; congruence. Qed.

Lemma m_power_raises (p : Machine.power F) (e : exn) :
  Machine.power_value A p = inl e -> e = OverflowError \/ e = ZeroDivisionError.
Proof.
  destruct p; unfold Machine.power_value, ret, raise; intros E;
    try discriminate; injection E as <-; auto.
Qed.

End MachineLoop.

Section MachineWhole.

Variable A : Machine.Arith.
Variables (q sl mn nb h : Machine.carrier A) (jcz : Z)
          (b0 : Machine.carrier A) (n : Z) (alh : Machine.carrier A).

Local Abbreviation F := (Machine.carrier A).
Local Abbreviation eval := (Machine.evaluate A sl mn nb h jcz).
Local Abbreviation lines :=
  (Machine.trace A q sl mn nb h jcz alh (Z.to_nat n) b0 (Machine.track0 A)).
Local Abbreviation ending :=
  (Machine.outcome A q sl mn nb h jcz alh (Z.to_nat n) b0 (Machine.track0 A)).
Local Abbreviation run := (Machine.compute_channel A q sl mn nb h jcz b0 n alh).
Local Abbreviation passes := (Machine.passes A sl nb h jcz).
Local Abbreviation refused := (Machine.refused A sl nb h jcz).

Lemma m_arithmetic_not_validation (e : exn) :
  Machine.arithmetic_error e -> ~ Machine.validation_error e.
Proof.
  unfold Machine.arithmetic_error, Machine.validation_error, domain_error.
  intros [-> | [-> | [-> | ->]]] [H | [H | [H | H]]]; discriminate.
Qed.

Lemma m_chezy_raises (rg : F) (e : exn) :
  Machine.chezy A nb jcz rg = inl e -> Machine.arithmetic_error e.
Proof.
  unfold Machine.chezy, Machine.arithmetic_error.
  destruct (jcz =? 0)%Z; [| destruct (jcz =? 1)%Z].
  - destruct (Machine.fle A (Machine.flit A 1 1) rg);
      (destruct (Machine.fsqrt A nb); cbn [Machine.need bind ret raise];
       [| intros E; injection E as <-; auto]);
      (destruct (Machine.fdiv A (Machine.flit A 1 1) nb);
       cbn [Machine.need bind ret raise]; [| intros E; injection E as <-; auto]);
      (match goal with
       | |- context [Machine.power_value A ?p] =>
           destruct (Machine.power_value A p) as [e' |] eqn:P; cbn [bind ret]
       end;
       [intros E; injection E as <-;
        destruct (m_power_raises A _ _ P) as [-> | ->]; auto
       | discriminate]).
  - destruct (Machine.fdiv A (Machine.flit A 1 1) nb);
      cbn [Machine.need bind ret raise]; [| intros E; injection E as <-; auto].
    match goal with
    | |- context [Machine.flog10 A ?x] => destruct (Machine.flog10 A x)
    end; cbn [Machine.need bind ret raise];
      [discriminate | intros E; injection E as <-; auto].
  - destruct (Machine.fdiv A (Machine.flit A 1 1) nb);
      cbn [Machine.need bind ret raise]; [| intros E; injection E as <-; auto].
    destruct (Machine.fdiv A (Machine.flit A 1 1) (Machine.flit A 6 1));
      cbn [Machine.need bind ret raise]; [| intros E; injection E as <-; auto].
    match goal with
    | |- context [Machine.power_value A ?p] =>
        destruct (Machine.power_value A p) as [e' |] eqn:P; cbn [bind ret]
    end;
      [intros E; injection E as <-;
       destruct (m_power_raises A _ _ P) as [-> | ->]; auto
      | discriminate].
Qed.

Lemma m_evaluate_raises (b : F) (e : exn) :
  eval b = inl e -> Machine.arithmetic_error e.
Proof.
  unfold Machine.evaluate. cbv zeta.
  destruct (Machine.power_value A (Machine.fpow A mn (Machine.flit A 2 1)))
    as [e' | p] eqn:P; cbn [bind].
  { intros E. injection E as <-.
    destruct (m_power_raises A _ _ P) as [-> | ->];
      unfold Machine.arithmetic_error; auto. }
  destruct p as [sq |]; cbn [bind ret raise];
    [| intros E; injection E as <-; unfold Machine.arithmetic_error; auto].
  match goal with
  | |- context [Machine.need (Machine.fsqrt A ?x) _] =>
      destruct (Machine.fsqrt A x) as [s |]
  end; cbn [Machine.need bind ret raise];
    [| intros E; injection E as <-; unfold Machine.arithmetic_error; auto].
  match goal with
  | |- context [Machine.need (Machine.fdiv A ?x ?y) _] =>
      destruct (Machine.fdiv A x y) as [rg |]
  end; cbn [Machine.need bind ret raise];
    [| intros E; injection E as <-; unfold Machine.arithmetic_error; auto].
  destruct (Machine.chezy A nb jcz rg) as [e' | cz] eqn:C; cbn [bind].
  { intros E. injection E as <-. exact (m_chezy_raises _ _ C). }
  match goal with
  | |- context [Machine.need (Machine.fsqrt A ?x) _] =>
      destruct (Machine.fsqrt A x) as [r |]
  end; cbn [Machine.need bind ret raise];
    [discriminate | intros E; injection E as <-;
                    unfold Machine.arithmetic_error; auto].
Qed.

Lemma m_outcome_raises (k : nat) :
  forall b t e,
    Machine.outcome A q sl mn nb h jcz alh k b t = inl e ->
    Machine.arithmetic_error e.
Proof.
  induction k as [| k IH]; intros b t e O; [discriminate |].
  destruct (m_run_cases A q sl mn nb h jcz alh k b t)
    as [(e' & E & _ & O') | [(ev & _ & _ & _ & O')
       | [(ev & x & _ & _ & _ & _ & O') | (ev & x & _ & _ & _ & _ & O')]]];
    rewrite O' in O.
  - injection O as <-. exact (m_evaluate_raises _ _ E).
  - injection O as <-. unfold Machine.arithmetic_error. auto.
  - exact (IH _ _ _ O).
  - discriminate.
Qed.

Lemma m_finish_raises (t : Machine.Track A) (e : exn) :
  Machine.finish A t = inl e -> e = domain_error.
Proof.
  unfold Machine.finish.
  match goal with
  | |- context [Machine.need (Machine.fsqrt A ?x) _] =>
      destruct (Machine.fsqrt A x)
  end; cbn [Machine.need bind ret raise]; [discriminate |].
  intros E. injection E as <-. reflexivity.
Qed.

Lemma m_passes_or_refused : passes \/ refused.
Proof.
  unfold Machine.passes, Machine.refused.
  destruct (Machine.fle A nb (Machine.zero A));
    destruct (Machine.fle A h (Machine.zero A));
    destruct (Machine.flt A sl (Machine.zero A));
    destruct (Z.eq_dec jcz 0); destruct (Z.eq_dec jcz 1);
    destruct (Z.eq_dec jcz 2); tauto.
Qed.

Lemma m_validate_passes :
  passes -> Machine.validate A sl nb h jcz = inr tt.
Proof.
  intros (Hnb & Hh & Hsl & Hj). unfold Machine.validate.
  rewrite Hnb, Hh, Hsl. destruct Hj as [-> | [-> | ->]]; reflexivity.
Qed.

Lemma m_validate_refused :
  refused ->
  exists e, Machine.validate A sl nb h jcz = inl e /\ Machine.validation_error e.
Proof.
  intros Href. unfold Machine.validate, Machine.validation_error.
  destruct (Machine.fle A nb (Machine.zero A)) eqn:Hnb;
    [eexists; split; [reflexivity | auto] |].
  destruct (Machine.fle A h (Machine.zero A)) eqn:Hh;
    [eexists; split; [reflexivity | auto] |].
  destruct (Machine.flt A sl (Machine.zero A)) eqn:Hsl;
    [eexists; split; [reflexivity | auto] |].
  destruct Href as [Hr | [Hr | [Hr | (J0 & J1 & J2)]]]; try congruence.
  apply Z.eqb_neq in J0. apply Z.eqb_neq in J1. apply Z.eqb_neq in J2.
  rewrite J0, J1, J2. cbn.
  eexists; split; [reflexivity | auto 6].
Qed.

Lemma m_passes_not_refused : passes -> ~ refused.
Proof.
  intros (Hnb & Hh & Hsl & Hj) [Hr | [Hr | [Hr | (J0 & J1 & J2)]]];
    try congruence.
  destruct Hj as [? | [? | ?]]; contradiction.
Qed.

(** After validation the call opens the file and runs the loop. *)
Lemma m_compute_channel_passes :
  passes ->
  run = (match ending with
         | inl e => inl e
         | inr t => Machine.finish A t
         end, Some lines).
Proof.
  intros Hp. unfold Machine.compute_channel. rewrite (m_validate_passes Hp).
  unfold Machine.trace, Machine.outcome.
  destruct (Machine.search A q sl mn nb h jcz alh (Z.to_nat n) b0
              (Machine.track0 A) []) as [[e | t] f]; reflexivity.
Qed.

Lemma m_compute_channel_refused :
  refused ->
  exists e, run = (inl e, None) /\ Machine.validation_error e.
Proof.
  intros Href. destruct (m_validate_refused Href) as (e & E & He).
  exists e. split; [| exact He]. unfold Machine.compute_channel.
  rewrite E. reflexivity.
Qed.

Lemma m_opened_passes (r : res (Machine.ResultRecord A)) (l : Machine.File A) :
  run = (r, Some l) -> passes.
Proof.
  intros E. destruct m_passes_or_refused as [Hp | Href]; [exact Hp |].
  destruct (m_compute_channel_refused Href) as (e & E' & _). congruence.
Qed.

(** After validation nothing raised is an error of validation. *)
Lemma m_passes_no_validation_error (e : exn) (f : option (Machine.File A)) :
  passes -> run = (inl e, f) -> Machine.arithmetic_error e.
Proof.
  intros Hp E. rewrite (m_compute_channel_passes Hp) in E.
  destruct ending as [e' | t] eqn:O.
  - injection E as <- _. exact (m_outcome_raises _ _ _ _ O).
  - injection E as F _. rewrite (m_finish_raises _ _ F).
    unfold Machine.arithmetic_error. auto.
Qed.

(** The widths of the lines of a call. *)
Lemma m_widths (r : res (Machine.ResultRecord A)) (l : Machine.File A) :
  run = (r, Some l) ->
  (forall s, nth_error l 0 = Some s -> fst s = b0) /\
  (forall i s s', nth_error l i = Some s -> nth_error l (S i) = Some s' ->
                  fst s' = Machine.fadd A (fst s) alh).
Proof.
  intros E. pose proof (m_opened_passes r l E) as Hp.
  rewrite (m_compute_channel_passes Hp) in E. injection E as _ <-.
  pose proof (m_trace_stepwise A q sl mn nb h jcz alh (Z.to_nat n) b0
                (Machine.track0 A)) as W.
  split.
  - intros s N. exact (m_stepwise_first A q sl mn nb h jcz alh _ _ _ W N).
  - intros i s s' N N'.
    exact (proj1 (m_stepwise_next A q sl mn nb h jcz alh _ _ _ _ _ W N N')).
Qed.

(** A call that returned left the loop with a running best. *)
Lemma m_returned (r : Machine.ResultRecord A) (l : Machine.File A) :
  run = (inr r, Some l) ->
  l = lines /\ exists t, ending = inr t /\ Machine.finish A t = inr r.
Proof.
  intros E. pose proof (m_opened_passes _ l E) as Hp.
  rewrite (m_compute_channel_passes Hp) in E.
  destruct ending as [e | t]; [discriminate |].
  injection E as F <-. eauto.
Qed.

End MachineWhole.

(** ** The rendering to ten decimals *)



(** ** The real-number model is the program over exact arithmetic *)

Section ExactBridge.

Lemma exact_zero : Machine.zero Exact = 0.
Proof. unfold Machine.zero. cbn. lra. Qed.

Lemma exact_lit (n : Z) : Machine.flit Exact n 1 = IZR n.
Proof. cbn. lra. Qed.

Lemma exact_div (x y : R) :
  Machine.need (Machine.fdiv Exact x y) ZeroDivisionError = div x y.
Proof. cbn. unfold div. destruct (Req_dec_T y 0); reflexivity. Qed.

Lemma exact_sqrt (x : R) :
  Machine.need (Machine.fsqrt Exact x) domain_error = math_sqrt x.
Proof. cbn. unfold math_sqrt. destruct (Rlt_dec x 0); reflexivity. Qed.

Lemma exact_log10 (x : R) :
  Machine.need (Machine.flog10 Exact x) domain_error = math_log10 x.
Proof. cbn. unfold math_log10. destruct (Rle_dec x 0); reflexivity. Qed.

Lemma pow_raises (x y : R) (e : exn) : pow x y = inl e -> e = ZeroDivisionError.
Proof.
  unfold pow.
  destruct (Rlt_dec 0 x); [discriminate |].
  destruct (Req_dec_T x 0).
  - destruct (Rlt_dec 0 y); [discriminate |].
    destruct (Req_dec_T y 0); [discriminate |].
    intros E. injection E as <-. reflexivity.
  - destruct (is_integer y); discriminate.
Qed.

Lemma exact_power (x y : R) :
  Machine.power_value Exact (Machine.fpow Exact x y)
  = res_map exact_value (pow x y).
Proof.
  cbn. unfold exact_pow.
  destruct (pow x y) as [e | [v |]] eqn:P; cbn; try reflexivity.
  rewrite (pow_raises _ _ _ P). reflexivity.
Qed.

Lemma exact_vmul (a b : pyval) :
  Machine.vmul Exact (exact_value a) (exact_value b) = exact_value (mul a b).
Proof. destruct a, b; reflexivity. Qed.

Lemma pow_square (x : R) : pow x 2 = inr (PFloat (x ^ 2)).
Proof.
  assert (I2 : Int_part 2 = 2%Z).
  { symmetry. apply Int_part_spec. lra. }
  assert (P2 : forall y, 0 < y -> Rpower y 2 = y ^ 2).
  { intros y Hy. rewrite <- (Rpower_pow 2 y Hy). f_equal. }
  unfold pow.
  destruct (Rlt_dec 0 x) as [Hx | Hx].
  { unfold ret. rewrite (P2 x Hx). reflexivity. }
  destruct (Req_dec_T x 0) as [-> | Hx0].
  { destruct (Rlt_dec 0 2); [| lra]. unfold ret. do 2 f_equal. lra. }
  unfold is_integer. rewrite I2.
  destruct (Req_dec_T 2 2) as [_ | N]; [| contradiction].
  cbn [Z.even]. unfold ret. rewrite (P2 (- x)) by lra. do 2 f_equal. lra.
Qed.

Section Program.

Variables (q sl mn nb h : R) (jcz : Z) (b0 : R) (n : Z) (alh : R).

Lemma exact_validate :
  Machine.validate Exact sl nb h jcz = validate sl nb h jcz.
Proof.
  unfold Machine.validate, validate. rewrite exact_zero. cbn.
  destruct (Rle_dec nb 0); [reflexivity |].
  destruct (Rle_dec h 0); [reflexivity |].
  destruct (Rlt_dec sl 0); reflexivity.
Qed.

Lemma exact_chezy (rg : R) :
  Machine.chezy Exact nb jcz rg = res_map exact_value (chezy nb jcz rg).
Proof.
  unfold Machine.chezy, chezy.
  destruct (jcz =? 0)%Z; [| destruct (jcz =? 1)%Z].
  - replace (Machine.fle Exact (Machine.flit Exact 1 1) rg)
      with (if Rle_dec 1 rg then true else false)
      by (cbn; replace (1 / 1) with 1 by lra; reflexivity).
    destruct (Rle_dec 1 rg);
      rewrite exact_sqrt, exact_div, exact_lit;
      (destruct (math_sqrt nb) as [e | s]; cbn [bind ret]; [reflexivity |]);
      (destruct (div 1 nb) as [e | inv]; cbn [bind res_map]; [reflexivity |]);
      rewrite exact_power.
    + replace (Machine.fmul Exact (Machine.flit Exact 15 10) s) with (1.5 * s)
        by (cbn; lra).
      destruct (pow rg (1.5 * s)) as [e | p]; cbn [bind res_map ret];
        [reflexivity |].
      destruct p; reflexivity.
    + replace (Machine.fmul Exact (Machine.flit Exact 13 10) s) with (1.3 * s)
        by (cbn; lra).
      destruct (pow rg (1.3 * s)) as [e | p]; cbn [bind res_map ret];
        [reflexivity |].
      destruct p; reflexivity.
  - rewrite exact_div, exact_lit.
    destruct (div 1 nb) as [e | inv]; cbn [bind res_map]; [reflexivity |].
    rewrite exact_log10.
    replace (Machine.flit Exact 1 1000000000000) with 1e-12 by (cbn; lra).
    cbn [Machine.flt Exact].
    destruct (Rlt_dec 1e-12 rg);
      (match goal with
       | |- context [math_log10 ?x] => destruct (math_log10 x) as [e | l]
       end; cbn [bind res_map ret]; [reflexivity |]);
      cbn [Machine.fadd Machine.fmul Machine.flit Exact exact_value];
      unfold ret; do 2 f_equal; lra.
  - rewrite !exact_div, exact_lit.
    destruct (div 1 nb) as [e | inv]; cbn [bind res_map]; [reflexivity |].
    rewrite exact_lit.
    assert (D6 : div 1 6 = inr (1 / 6)).
    { unfold div. destruct (Req_dec_T 6 0); [lra | reflexivity]. }
    rewrite D6. cbn [bind]. rewrite exact_power.
    destruct (pow rg (1 / 6)) as [e | p]; cbn [bind res_map ret];
      [reflexivity |].
    destruct p; reflexivity.
Qed.

Lemma exact_evaluate (b : R) :
  Machine.evaluate Exact sl mn nb h jcz b
  = res_map exact_eval (evaluate sl mn nb h jcz b).
Proof.
  unfold Machine.evaluate, evaluate. cbv zeta.
  rewrite exact_power, !exact_lit, pow_square, exact_zero.
  cbn [res_map bind exact_value ret]. rewrite exact_sqrt.
  replace (Machine.flit Exact 1 1000000000000) with 1e-12 by (cbn; lra).
  cbn [Machine.fadd Machine.fmul Machine.fle Machine.flt Exact].
  destruct (math_sqrt (1 + mn ^ 2)) as [e | s]; cbn [bind res_map];
    [reflexivity |].
  destruct (Rle_dec (b + 2 * h * s) 0) as [Hk | Hk];
    rewrite exact_div;
    (match goal with
     | |- context [div ?x ?y] => destruct (div x y) as [e | rg]
     end; cbn [bind res_map]; [reflexivity |]);
    rewrite exact_chezy;
    (destruct (chezy nb jcz rg) as [e | cz]; cbn [bind res_map];
     [reflexivity |]);
    (destruct (Rlt_dec 0 (rg * sl)) as [Hs | Hs]);
    rewrite exact_sqrt;
    (match goal with
     | |- context [math_sqrt ?x] => destruct (math_sqrt x) as [e | root]
     end; cbn [bind res_map ret]; [reflexivity |]);
    unfold exact_eval; cbn [ev_w ev_rg ev_cz ev_qt];
    destruct cz; reflexivity.
Qed.

Lemma exact_finish (t : Track) :
  Machine.finish Exact (exact_track t) = res_map exact_record (finish t).
Proof.
  unfold Machine.finish, finish. rewrite exact_zero.
  cbn [Machine.flt Exact exact_track Machine.t_rgt Machine.t_bt Machine.t_qth
       Machine.t_czt].
  destruct (Rlt_dec 0 (t_rgt t)) as [Hs | Hs];
    rewrite exact_sqrt;
    (match goal with
     | |- context [math_sqrt ?x] => destruct (math_sqrt x) as [e | root]
     end; cbn [bind res_map ret]; [reflexivity |]);
    unfold exact_record; cbn [bt qth rgt czt cr05];
    destruct (t_czt t); reflexivity.
Qed.

Lemma exact_track0 : Machine.track0 Exact = exact_track track0.
Proof.
  unfold Machine.track0, exact_track, track0. rewrite exact_zero. reflexivity.
Qed.

Lemma exact_search_from (k : nat) :
  forall b t f g,
    g = exact_file f ->
    Machine.search Exact q sl mn nb h jcz alh k b (exact_track t) g
    = (res_map exact_track (fst (search q sl mn nb h jcz alh k b t f)),
       exact_file (snd (search q sl mn nb h jcz alh k b t f))).
Proof.
  induction k as [| k IH]; intros b t f g ->; [reflexivity |].
  cbn [Machine.search search].
  unfold Machine.io_bind, Machine.lift, Machine.write, io_bind, lift, write.
  rewrite exact_evaluate.
  destruct (evaluate sl mn nb h jcz b) as [e | ev]; cbn [res_map];
    [reflexivity |].
  assert (W : forall v : pyval,
             exact_file f ++ [(b, exact_value v)] = exact_file (f ++ [(b, v)])).
  { intros v. unfold exact_file. rewrite map_app. reflexivity. }
  cbn [exact_eval Machine.ev_qt Machine.ev_rg Machine.ev_cz].
  replace (Machine.fmul Exact (Machine.flit Exact 12 10) q) with (1.2 * q)
    by (cbn; lra).
  destruct (ev_qt ev) as [x |]; cbn [exact_value Machine.vle Machine.vlt le lt
                                      ret raise res_map fst snd].
  - cbn [Machine.fle Machine.flt Machine.fadd Exact].
    destruct (Rlt_dec x (1.2 * q)); destruct (Rle_dec x q).
    + exact (IH (b + alh) (mkTrack b (PFloat x) (ev_rg ev) (ev_cz ev)) _ _
                (W (PFloat x))).
    + exact (IH (b + alh) t _ _ (W (PFloat x))).
    + unfold Machine.io_ret, io_ret. cbn [fst snd res_map].
      f_equal. exact (W (PFloat x)).
    + unfold Machine.io_ret, io_ret. cbn [fst snd res_map].
      f_equal. exact (W (PFloat x)).
  - f_equal. exact (W PComplex).
Qed.

Lemma exact_search (k : nat) (b : R) (t : Track) :
  Machine.search Exact q sl mn nb h jcz alh k b (exact_track t) []
  = (res_map exact_track (fst (search q sl mn nb h jcz alh k b t [])),
     exact_file (snd (search q sl mn nb h jcz alh k b t []))).
Proof. exact (exact_search_from k b t [] [] eq_refl). Qed.

Theorem exact_compute_channel :
  Machine.compute_channel Exact q sl mn nb h jcz b0 n alh
  = exact_outcome (compute_channel q sl mn nb h jcz b0 n alh).
Proof.
  unfold Machine.compute_channel, compute_channel, exact_outcome.
  rewrite exact_validate.
  destruct (validate sl nb h jcz) as [e | []]; [reflexivity |].
  rewrite exact_track0.
  rewrite (exact_search (Z.to_nat n) b0 track0).
  destruct (search q sl mn nb h jcz alh (Z.to_nat n) b0 track0 [])
    as [[e | t] f]; cbn [fst snd res_map option_map]; [reflexivity |].
  rewrite exact_finish. reflexivity.
Qed.

Lemma exact_passes : valid sl nb h jcz -> Machine.passes Exact sl nb h jcz.
Proof.
  intros (Hnb & Hh & Hsl & Hj). unfold Machine.passes. rewrite exact_zero.
  cbn [Machine.fle Machine.flt Exact].
  destruct (Rle_dec nb 0); [lra |]. destruct (Rle_dec h 0); [lra |].
  destruct (Rlt_dec sl 0); [lra |]. auto.
Qed.

Lemma exact_run (r : res ResultRecord) (f : option File) :
  compute_channel q sl mn nb h jcz b0 n alh = (r, f) ->
  Machine.compute_channel Exact q sl mn nb h jcz b0 n alh
  = (res_map exact_record r, option_map exact_file f).
Proof. intros E. rewrite exact_compute_channel, E. reflexivity. Qed.

End Program.

End ExactBridge.

(** * The properties *)

(** ** C1: the selected width *)

(** C1, counterexample.  With the step -1 from width 5 both widths 5 and 4 carry discharge 0,
    within the target 1; the call returns 4, the last and the smallest. *)
Lemma negative_step_selects_narrowest :
  ~ widest_within_as_stated 1 0 0 1 1 1 5 2 (-1).
Proof.
  intros Claim.
  destruct (agroskin_flat_run 1 0 1 1 (-1) ltac:(lra) ltac:(lra) ltac:(lra) 5 2)
    as [r E].
  destruct (Claim r _ E) as (_ & Hmax & _).
  assert (L : last_within 1 (flat_lines (-1) (Z.to_nat 2) 5)
              = Some (5 + -1, PFloat 0)).
  { change (Z.to_nat 2) with 2%nat. cbn [flat_lines last_within].
    unfold within. cbn [snd]. destruct (Rle_dec 0 1); [reflexivity | lra]. }
  destruct (returned_some _ _ _ _ _ _ _ _ _ _ _ E _ L) as (Hbt & _).
  specialize (Hmax (5, PFloat 0)). rewrite Hbt in Hmax. cbn in Hmax.
  assert (5 <= 5 + -1); [| lra].
  apply Hmax; [left; reflexivity |].
  unfold within. cbn. destruct (Rle_dec 0 1); [reflexivity | lra].
Qed.

(** C1, amended.  A returning call returns the last evaluated width whose
    discharge is within the target, with the discharge, the hydraulic radius
    and the coefficient evaluated there; when the step is not negative this
    is also the largest such width; when no evaluated width is within the
    target the record is all zero. *)
Theorem selected_width_is_last_within_target
    (q sl mn nb h : R) (jcz : Z) (b0 : R) (n : Z) (alh : R)
    (r : ResultRecord) (l : File) :
  compute_channel q sl mn nb h jcz b0 n alh = (inr r, Some l) ->
  ((forall s, In s l -> within q s = false) -> r = zero_record) /\
  (forall s0, In s0 l -> within q s0 = true ->
     last_within q l = Some (bt r, qth r) /\
     In (bt r, qth r) l /\ within q (bt r, qth r) = true /\
     discharge sl mn nb h jcz (bt r) = inr (qth r) /\
     rgt r = hydraulic_radius mn h (bt r) /\
     coefficient nb jcz (rgt r) = inr (czt r) /\
     (0 <= alh ->
      forall s, In s l -> within q s = true -> fst s <= bt r)).
Proof.
  intros E. split.
  - intros Hno. apply (returned_none _ _ _ _ _ _ _ _ _ _ _ E).
    apply last_within_none. exact Hno.
  - intros s0 I0 W0.
    destruct (last_within_some q l s0 I0 W0) as [s L].
    destruct (returned_some _ _ _ _ _ _ _ _ _ _ _ E s L)
      as (Hbt & Hqth & Hd & Hrg & Hcz & _).
    destruct (last_within_in q l s L) as [I W].
    assert (Hs : s = (bt r, qth r)) by (rewrite Hbt, Hqth; destruct s; reflexivity).
    rewrite <- Hs. repeat split; auto.
    intros Ha s' I' W'. rewrite Hbt.
    exact (last_within_widest q sl mn nb h jcz alh l b0 s Ha
             (returned_stepwise _ _ _ _ _ _ _ _ _ _ _ E) L s' I' W').
Qed.

Lemma selected_width_is_last_within_target_witness :
  exists r,
    compute_channel 1 0 0 1 1 1 1 2 1
    = (inr r, Some [(1, PFloat 0); (1 + 1, PFloat 0)]) /\
    bt r = 1 + 1 /\ qth r = PFloat 0 /\
    (0 <= 1 ->
     forall s, In s [(1, PFloat 0); (1 + 1, PFloat 0)] ->
               within 1 s = true -> fst s <= bt r).
Proof.
  destruct (agroskin_flat_run 1 0 1 1 1 ltac:(lra) ltac:(lra) ltac:(lra) 1 2)
    as [r E].
  exists r. split; [exact E |].
  assert (W1 : within 1 (1, PFloat 0) = true).
  { unfold within. cbn. destruct (Rle_dec 0 1); [reflexivity | lra]. }
  destruct (proj2 (selected_width_is_last_within_target
                     1 0 0 1 1 1 1 2 1 r _ E)
                  (1, PFloat 0) ltac:(left; reflexivity) W1)
    as (L & _ & _ & _ & _ & _ & Hmax).
  assert (L' : last_within 1 [(1, PFloat 0); (1 + 1, PFloat 0)]
               = Some (1 + 1, PFloat 0)).
  { cbn [last_within]. unfold within. cbn [snd].
    destruct (Rle_dec 0 1); [reflexivity | lra]. }
  change (flat_lines 1 (Z.to_nat 2) 1)
    with [(1, PFloat 0); (1 + 1, PFloat 0)] in L.
  rewrite L' in L. injection L as Hbt Hqth.
  repeat split; auto.
Defined.

(** ** C2: validation failures *)

(** C2.  Parameters with [nb <= 0], [h <= 0], [sl < 0] or a selector other
    than 0, 1, 2 make [compute_channel] raise a ValueError with a message;
    [qfb.dat] is never opened, so no iteration has run and no sample was
    written. *)
Theorem invalid_parameters_rejected
    (q sl mn nb h : R) (jcz : Z) (b0 : R) (n : Z) (alh : R) :
  nb <= 0 \/ h <= 0 \/ sl < 0 \/ (jcz <> 0 /\ jcz <> 1 /\ jcz <> 2)%Z ->
  exists msg,
    msg <> EmptyString /\
    compute_channel q sl mn nb h jcz b0 n alh = (inl (ValueError msg), None).
Proof.
  intros Hinv. apply compute_channel_invalid. exact Hinv.
Qed.

Lemma invalid_parameters_rejected_witness :
  exists msg,
    msg <> EmptyString /\
    compute_channel 5 0.001 1.5 0.025 1.2 3 0.5 10000 0.01
    = (inl (ValueError msg), None).
Proof.
  apply (invalid_parameters_rejected 5 0.001 1.5 0.025 1.2 3 0.5 10000 0.01).
  right; right; right. repeat split; discriminate.
Defined.

(** The rejections the specification lists, with their messages. *)
Example rejects_zero_roughness :
  compute_channel 5 0.001 1.5 0 1.2 2 0.5 10000 0.01
  = (inl (ValueError "Barzgarshilt (nb) must be > 0."), None).
Proof.
  unfold compute_channel, validate.
  destruct (Rle_dec 0 0); [reflexivity | lra].
Qed.

Example rejects_negative_depth :
  compute_channel 5 0.001 1.5 0.025 (-1) 2 0.5 10000 0.01
  = (inl (ValueError "Depth h must be > 0."), None).
Proof.
  unfold compute_channel, validate.
  destruct (Rle_dec 0.025 0); [lra |].
  destruct (Rle_dec (-1) 0); [reflexivity | lra].
Qed.

Example rejects_negative_slope :
  compute_channel 5 (-0.001) 1.5 0.025 1.2 2 0.5 10000 0.01
  = (inl (ValueError "Slope sl must be >= 0."), None).
Proof.
  unfold compute_channel, validate.
  destruct (Rle_dec 0.025 0); [lra |].
  destruct (Rle_dec 1.2 0); [lra |].
  destruct (Rlt_dec (-0.001) 0); [reflexivity | lra].
Qed.

Example rejects_selector_three :
  compute_channel 5 0.001 1.5 0.025 1.2 3 0.5 10000 0.01
  = (inl (ValueError
            "jcz must be 0 (Pawlowski), 1 (Agroskin), or 2 (Manning)."), None).
Proof.
  unfold compute_channel, validate.
  destruct (Rle_dec 0.025 0); [lra |].
  destruct (Rle_dec 1.2 0); [lra |].
  destruct (Rlt_dec 0.001 0); [lra | reflexivity].
Qed.

(** ** C3: the discharge of a sample *)

(** C3.  Every line written by a call on validated parameters holds, next
    to its width [b], the discharge A * C * sqrt (max (R * S) 0) of the
    specification at [b]; for a positive hydraulic radius this is the real
    number given by the real power function. *)
Theorem sample_discharge_formula
    (q sl mn nb h : R) (jcz : Z) (b0 : R) (n : Z) (alh : R)
    (r : res ResultRecord) (l : File) (b : R) (qt : pyval) :
  compute_channel q sl mn nb h jcz b0 n alh = (r, Some l) ->
  In (b, qt) l ->
  discharge sl mn nb h jcz b = inr qt /\
  (0 < hydraulic_radius mn h b ->
   qt = PFloat (real_discharge sl mn nb h jcz b)).
Proof.
  intros E I. pose proof (opened_valid _ _ _ _ _ _ _ _ _ _ _ E) as Hv.
  rewrite (compute_channel_valid q sl mn nb h jcz b0 n alh Hv) in E.
  injection E as _ <-.
  pose proof (trace_stepwise q sl mn nb h jcz alh (Z.to_nat n) b0 track0) as W.
  destruct (stepwise_evaluated _ _ _ _ _ _ _ _ _ _ W I) as (ev & Ev & Q).
  cbn [fst snd] in Ev, Q.
  destruct (evaluate_fields sl mn nb h jcz Hv b ev Ev) as (_ & _ & _ & D).
  rewrite Q in D. split; [exact D |].
  intros Hr. rewrite (discharge_real sl mn nb h jcz b Hr) in D.
  injection D as <-. reflexivity.
Qed.

Lemma sample_discharge_formula_witness :
  discharge 0 0 1 1 1 1 = inr (PFloat 0) /\
  (0 < hydraulic_radius 0 1 1 -> PFloat 0 = PFloat (real_discharge 0 0 1 1 1 1)).
Proof.
  destruct (agroskin_flat_run 1 0 1 1 1 ltac:(lra) ltac:(lra) ltac:(lra) 1 2)
    as [r E].
  apply (sample_discharge_formula 1 0 0 1 1 1 1 2 1 (inr r) _ 1 (PFloat 0) E).
  left. reflexivity.
Defined.

(** ** C4: termination and stepping *)

(** C4.  Whatever the arithmetic, on parameters that pass validation the
    call opens the file and writes at most [n] lines, one per step.  With a
    positive budget the first step is taken at [b0]: it writes the first
    line, or its evaluation raises and the call ends with that exception.
    A line whose discharge passes the test [qt < 1.2 * q] is followed, while
    the budget lasts, by the step at the width advanced by [alh], which
    writes the next line or raises in the same way; on the last step of the
    budget the loop is left for the return statement.  A line whose
    discharge fails the test is the last, and the loop is left for the
    return statement; a line with a complex discharge is the last, and the
    call ends with TypeError. *)
Theorem search_terminates_and_steps
    (A : Machine.Arith) (q sl mn nb h : Machine.carrier A) (jcz : Z)
    (b0 : Machine.carrier A) (n : Z) (alh : Machine.carrier A) :
  Machine.passes A sl nb h jcz ->
  exists r l,
    Machine.compute_channel A q sl mn nb h jcz b0 n alh = (r, Some l) /\
    (List.length l <= Z.to_nat n)%nat /\
    ((0 < n)%Z ->
     (exists qt, nth_error l 0 = Some (b0, qt)) \/
     (l = [] /\
      exists e, Machine.evaluate A sl mn nb h jcz b0 = inl e /\ r = inl e)) /\
    forall i bi qt,
      nth_error l i = Some (bi, qt) ->
      match qt with
      | Machine.VComplex _ => List.length l = S i /\ r = inl TypeError
      | Machine.VFloat _ x =>
          if Machine.flt A x (Machine.fmul A (Machine.flit A 12 10) q) then
            (S i < Z.to_nat n)%nat /\
            ((exists qt',
                nth_error l (S i) = Some (Machine.fadd A bi alh, qt')) \/
             (List.length l = S i /\
              exists e,
                Machine.evaluate A sl mn nb h jcz (Machine.fadd A bi alh)
                = inl e /\ r = inl e)) \/
            S i = Z.to_nat n /\ List.length l = Z.to_nat n /\
            exists t, r = Machine.finish A t
          else
            List.length l = S i /\ exists t, r = Machine.finish A t
      end.
Proof.
  intros Hp.
  rewrite (m_compute_channel_passes A q sl mn nb h jcz b0 n alh Hp).
  do 2 eexists. split; [reflexivity |].
  split; [apply m_trace_length |]. split.
  - intros Hn. destruct (Z.to_nat n) as [| k] eqn:K; [lia |].
    destruct (m_run_cases A q sl mn nb h jcz alh k b0 (Machine.track0 A))
      as [(e & E & T & O) | [(ev & _ & _ & T & _)
         | [(ev & x & _ & _ & _ & T & _) | (ev & x & _ & _ & _ & T & _)]]];
      rewrite T.
    + right. split; [reflexivity |]. exists e. rewrite O. auto.
    + left. eexists. reflexivity.
    + left. eexists. reflexivity.
    + left. eexists. reflexivity.
  - intros i bi qt N.
    pose proof (m_line_fate A q sl mn nb h jcz alh (Z.to_nat n) b0
                  (Machine.track0 A) i bi qt N) as Fate.
    destruct qt as [x |].
    + destruct (Machine.flt A x (Machine.fmul A (Machine.flit A 12 10) q)).
      * destruct Fate as [(Hi & [Next | (Len & e & E & O)])
                         | (Hi & Len & t' & O)].
        -- left. split; [exact Hi |]. left. exact Next.
        -- left. split; [exact Hi |]. right. split; [exact Len |].
           exists e. rewrite O. auto.
        -- right. rewrite O. eauto.
      * destruct Fate as (Len & t' & O). rewrite O. eauto.
    + destruct Fate as (Len & O). rewrite O. auto.
Qed.

Lemma search_terminates_and_steps_witness :
  Machine.passes Exact 0.001 0.025 1.2 2 /\
  exists r l,
    Machine.compute_channel Exact 5 0.001 1.5 0.025 1.2 2 0.5 10000 0.01
    = (r, Some l) /\
    (List.length l <= Z.to_nat 10000)%nat.
Proof.
  assert (Hp : Machine.passes Exact 0.001 0.025 1.2 2).
  { apply exact_passes. unfold valid. repeat split; try lra.
    right; right; reflexivity. }
  split; [exact Hp |].
  destruct (search_terminates_and_steps Exact 5 0.001 1.5 0.025 1.2 2 0.5
              10000 0.01 Hp) as (r & l & E & Len & _).
  exists r, l. auto.
Defined.

(** ** C5: exhausting the step budget *)




(** ** C6: faults inside the loop *)

(** C6.  Validated parameters with a negative hydraulic radius make the
    Manning branch raise a negative number to the power 1/6: the discharge
    is complex, its line is written, and the comparison with the target
    raises TypeError.  Here [b0 = -1], vertical banks, depth 1. *)
Theorem negative_radius_manning_raises :
  compute_channel 1 0 0 1 1 2 (-1) 1 1
  = (inl TypeError, Some [(-1, PComplex)]).
Proof.
  assert (Hv : valid 0 1 1 2).
  { unfold valid. repeat split; try lra. right; right; reflexivity. }
  assert (Ev : exists ev, evaluate 0 0 1 1 2 (-1) = inr ev /\ ev_qt ev = PComplex).
  { rewrite (evaluate_spec 0 0 1 1 2 Hv). rewrite radius_at_minus_one.
    unfold coefficient. cbn [Z.eqb Pos.eqb].
    rewrite (pow_neg_base_complex (-1) (1 / 6)); [| lra | exact sixth_not_integer].
    eexists. split; reflexivity. }
  destruct Ev as (ev0 & Ev & Q0).
  rewrite (compute_channel_valid 1 0 0 1 1 2 (-1) 1 1 Hv).
  change (Z.to_nat 1) with 1%nat.
  unfold trace, outcome.
  rewrite (search_complex 1 0 0 1 1 2 1 0 (-1) track0 [] ev0 Ev Q0).
  reflexivity.
Qed.

(** ** C7: the widths of the samples *)

(** C7, counterexample.  The step is not validated: with step 0 both lines are at width 1. *)
Lemma zero_step_widths_not_increasing : ~ widths_as_stated 1 0 0 1 1 1 1 2 0.
Proof.
  intros Claim.
  destruct (agroskin_flat_run 1 0 1 1 0 ltac:(lra) ltac:(lra) ltac:(lra) 1 2)
    as [r E].
  destruct (Claim _ _ E) as (_ & Hinc).
  destruct (Hinc 0%nat (1, PFloat 0) (1 + 0, PFloat 0) eq_refl eq_refl)
    as [Hlt _].
  cbn in Hlt. lra.
Qed.

(** C7, amended.  Whatever the arithmetic, the first line is at [b0] and
    the width of each further line is the float sum of the width before it
    and [alh]: one addition per step, with its rounding.  Nothing makes the
    widths increase: the step may be zero or negative, and an addition may
    return its first operand. *)
Theorem sample_widths_advance_by_step
    (A : Machine.Arith) (q sl mn nb h : Machine.carrier A) (jcz : Z)
    (b0 : Machine.carrier A) (n : Z) (alh : Machine.carrier A)
    (r : res (Machine.ResultRecord A)) (l : Machine.File A) :
  Machine.compute_channel A q sl mn nb h jcz b0 n alh = (r, Some l) ->
  (forall s, nth_error l 0 = Some s -> fst s = b0) /\
  (forall i s s', nth_error l i = Some s -> nth_error l (S i) = Some s' ->
                  fst s' = Machine.fadd A (fst s) alh).
Proof.
  intros E. exact (m_widths A q sl mn nb h jcz b0 n alh r l E).
Qed.

Lemma sample_widths_advance_by_step_witness :
  exists r l,
    Machine.compute_channel Exact 1 0 0 1 1 1 1 2 1 = (r, Some l) /\
    (forall s, nth_error l 0 = Some s -> fst s = 1) /\
    (forall i s s', nth_error l i = Some s -> nth_error l (S i) = Some s' ->
                    fst s' = Machine.fadd Exact (fst s) 1).
Proof.
  destruct (agroskin_flat_run 1 0 1 1 1 ltac:(lra) ltac:(lra) ltac:(lra) 1 2)
    as [r E].
  pose proof (exact_run _ _ _ _ _ _ _ _ _ _ _ E) as E'.
  cbn [option_map] in E'.
  do 2 eexists. split; [exact E' |].
  exact (sample_widths_advance_by_step Exact 1 0 0 1 1 1 1 2 1 _ _ E').
Defined.

(** In binary64 a positive step can leave the width where it is: from
    [1e16] with step 1 every line is at [1e16]. *)
Lemma binary64_step_absorbed
    (float_pow : PrimFloat.float -> PrimFloat.float ->
                 Machine.power PrimFloat.float)
    (libm_log10 : PrimFloat.float -> PrimFloat.float)
    (q sl mn nb h : PrimFloat.float) (jcz : Z) (n : Z)
    (r : res (Machine.ResultRecord (Binary64 float_pow libm_log10)))
    (l : Machine.File (Binary64 float_pow libm_log10)) :
  Machine.compute_channel (Binary64 float_pow libm_log10) q sl mn nb h jcz
    (b64_lit 10000000000000000 1) n (b64_lit 1 1) = (r, Some l) ->
  forall i s, nth_error l i = Some s -> fst s = b64_lit 10000000000000000 1.
Proof.
  intros E.
  destruct (m_widths _ _ _ _ _ _ _ _ _ _ _ _ E) as [First Next].
  induction i as [| i IH]; intros s N; [exact (First s N) |].
  destruct (nth_error l i) as [s0 |] eqn:N0.
  - rewrite (Next i s0 s N0 N), (IH s0 eq_refl). vm_compute. reflexivity.
  - exfalso. apply nth_error_None in N0.
    assert (N' : nth_error l (S i) <> None) by congruence.
    apply nth_error_Some in N'. lia.
Qed.

(** ** C8: the conveyance figure *)

(** C8, counterexample.  From [b0 = -1] with vertical banks and depth 1 the
    hydraulic radius is -1; the Agroskin discharge there is 0, within the
    target, so the record holds [rgt = -1], which has no square root. *)
Lemma negative_radius_has_no_root : ~ conveyance_as_stated 1 0 0 1 1 1 (-1) 1 1.
Proof.
  intros Claim.
  destruct (agroskin_flat_run 1 0 1 1 1 ltac:(lra) ltac:(lra) ltac:(lra) (-1) 1)
    as [r E].
  destruct (Claim _ _ E) as (s & Hs & _).
  assert (L : last_within 1 (flat_lines 1 (Z.to_nat 1) (-1))
              = Some (-1, PFloat 0)).
  { change (Z.to_nat 1) with 1%nat. cbn [flat_lines last_within].
    unfold within. cbn [snd]. destruct (Rle_dec 0 1); [reflexivity | lra]. }
  destruct (returned_some _ _ _ _ _ _ _ _ _ _ _ E _ L) as (Hbt & _ & _ & Hrg & _).
  cbn [fst] in Hbt. rewrite Hbt, radius_at_minus_one in Hrg.
  rewrite Hrg, math_sqrt_neg in Hs by lra. discriminate.
Qed.

(** C8, amended.  In every returned record [cr05] is [czt] times the square
    root of [rgt] clamped at 0 from below; this is [czt] times the square
    root of [rgt] whenever [rgt] is not negative. *)
Theorem conveyance_figure_clamped
    (q sl mn nb h : R) (jcz : Z) (b0 : R) (n : Z) (alh : R)
    (r : ResultRecord) (l : File) :
  compute_channel q sl mn nb h jcz b0 n alh = (inr r, Some l) ->
  cr05 r = mul (czt r) (PFloat (sqrt (Rmax (rgt r) 0))) /\
  (0 <= rgt r ->
   exists s, math_sqrt (rgt r) = inr s /\ cr05 r = mul (czt r) (PFloat s)).
Proof.
  intros E.
  destruct (returned _ _ _ _ _ _ _ _ _ _ _ E) as (_ & _ & t & _ & F).
  rewrite finish_spec in F. injection F as <-.
  cbn [cr05 czt rgt]. split; [reflexivity |].
  intros Hr. exists (sqrt (t_rgt t)). split.
  - apply math_sqrt_nonneg. exact Hr.
  - rewrite Rmax_left by exact Hr. reflexivity.
Qed.

Lemma conveyance_figure_clamped_witness :
  exists r,
    compute_channel 1 0 0 1 1 1 1 2 1
    = (inr r, Some [(1, PFloat 0); (1 + 1, PFloat 0)]) /\
    cr05 r = mul (czt r) (PFloat (sqrt (Rmax (rgt r) 0))).
Proof.
  destruct (agroskin_flat_run 1 0 1 1 1 ltac:(lra) ltac:(lra) ltac:(lra) 1 2)
    as [r E].
  exists r. split; [exact E |].
  exact (proj1 (conveyance_figure_clamped 1 0 0 1 1 1 1 2 1 r _ E)).
Defined.

(** ** C9: replaying the samples *)




(** ** C10: what validation lets through *)

(** C10.  Whatever the arithmetic, the call ends with one of the four
    errors of validation only if [nb <= 0], [h <= 0], [sl < 0] or the
    selector is none of 0, 1, 2, and then the file was not opened.
    Whatever the target [q], the side slope [mn], the first width [b0], the
    budget and the step are, all other parameters pass: the file is opened
    and the loop runs on them (with a positive budget the first step is
    taken at [b0]: it writes the first line, or its evaluation raises and
    the call ends with that exception), and whatever the call then raises
    is an error of the arithmetic, none of the four of validation. *)
Theorem only_validation_guards_reject
    (A : Machine.Arith) (q sl mn nb h : Machine.carrier A) (jcz : Z)
    (b0 : Machine.carrier A) (n : Z) (alh : Machine.carrier A) :
  (forall e f,
     Machine.compute_channel A q sl mn nb h jcz b0 n alh = (inl e, f) ->
     Machine.validation_error e ->
     Machine.refused A sl nb h jcz /\ f = None) /\
  (Machine.passes A sl nb h jcz ->
   exists r l,
     Machine.compute_channel A q sl mn nb h jcz b0 n alh = (r, Some l) /\
     l = Machine.trace A q sl mn nb h jcz alh (Z.to_nat n) b0
           (Machine.track0 A) /\
     (forall e, r = inl e ->
                Machine.arithmetic_error e /\ ~ Machine.validation_error e) /\
     ((0 < n)%Z ->
      (exists qt l', l = (b0, qt) :: l') \/
      (l = [] /\
       exists e, Machine.evaluate A sl mn nb h jcz b0 = inl e /\ r = inl e))).
Proof.
  split.
  - intros e f E He.
    destruct (m_passes_or_refused A sl nb h jcz) as [Hp | Href].
    + exfalso.
      exact (m_arithmetic_not_validation e
               (m_passes_no_validation_error A q sl mn nb h jcz b0 n alh e f
                  Hp E) He).
    + split; [exact Href |].
      destruct (m_compute_channel_refused A q sl mn nb h jcz b0 n alh Href)
        as (e' & E' & _). congruence.
  - intros Hp.
    pose proof (m_compute_channel_passes A q sl mn nb h jcz b0 n alh Hp) as E.
    do 2 eexists. split; [exact E |]. split; [reflexivity |]. split.
    + intros e He.
      assert (Ha : Machine.arithmetic_error e).
      { apply (m_passes_no_validation_error A q sl mn nb h jcz b0 n alh e
                 (Some (Machine.trace A q sl mn nb h jcz alh (Z.to_nat n) b0
                          (Machine.track0 A))) Hp).
        rewrite E, He. reflexivity. }
      split; [exact Ha | exact (m_arithmetic_not_validation e Ha)].
    + intros Hn. destruct (Z.to_nat n) as [| k] eqn:K; [lia |].
      destruct (m_run_cases A q sl mn nb h jcz alh k b0 (Machine.track0 A))
        as [(e & Ev & T & O) | [(ev & _ & _ & T & _)
           | [(ev & x & _ & _ & _ & T & _) | (ev & x & _ & _ & _ & T & _)]]];
        rewrite T.
      * right. split; [reflexivity |]. exists e. rewrite O. auto.
      * left. do 2 eexists. reflexivity.
      * left. do 2 eexists. reflexivity.
      * left. do 2 eexists. reflexivity.
Qed.

Lemma only_validation_guards_reject_witness :
  Machine.passes Exact 0 1 1 1 /\
  exists r l,
    Machine.compute_channel Exact (-1) 0 (-1) 1 1 1 (-1) 2 1 = (r, Some l) /\
    (forall e, r = inl e ->
               Machine.arithmetic_error e /\ ~ Machine.validation_error e).
Proof.
  assert (Hp : Machine.passes Exact 0 1 1 1).
  { apply exact_passes. unfold valid. repeat split; try lra.
    right; left; reflexivity. }
  split; [exact Hp |].
  destruct (proj2 (only_validation_guards_reject Exact (-1) 0 (-1) 1 1 1
                     (-1) 2 1) Hp) as (r & l & E & _ & Hr & _).
  exists r, l. auto.
Defined.

(** * Further properties of [compute_channel] *)

Section MoreOnRuns.

Variables (q sl mn nb h : R) (jcz : Z) (alh : R).

Local Abbreviation trace := (trace q sl mn nb h jcz alh).
Local Abbreviation outcome := (outcome q sl mn nb h jcz alh).
Local Abbreviation stepwise := (stepwise q sl mn nb h jcz alh).
Local Abbreviation update := (update q).

(** A loop that returns before its budget is used up has written, last, a
    real discharge that is not below [1.2 * q]. *)
Lemma early_return_overshoots (k : nat) :
  forall b t t',
    outcome k b t = inr t' -> (List.length (trace k b t) < k)%nat ->
    exists l b' x, trace k b t = l ++ [(b', PFloat x)] /\ ~ x < 1.2 * q.
Proof.
  induction k as [| k IH]; intros b t t' O Len; [cbn in Len; lia |].
  destruct (run_cases q sl mn nb h jcz alh k b t)
    as [(e & _ & _ & O') | [(ev & _ & _ & _ & O')
       | [(ev & x & _ & _ & _ & T & O') | (ev & x & _ & _ & Hx & T & _)]]];
    try congruence.
  - rewrite O' in O. rewrite T in Len |- *. cbn [List.length] in Len.
    destruct (IH _ _ _ O ltac:(lia)) as (l & b' & y & -> & Hy).
    exists ((b, PFloat x) :: l), b', y. auto.
  - rewrite T. exists [], b, x. auto.
Qed.

(** The sample selected splits the sequence: nothing after it is within the
    target. *)
Lemma last_within_split (l : File) (s : Sample) :
  last_within q l = Some s ->
  exists l1 l2,
    l = l1 ++ s :: l2 /\ within q s = true /\
    forall s', In s' l2 -> within q s' = false.
Proof.
  revert s. induction l as [| s0 l IH]; intros s; cbn [last_within];
    [discriminate |].
  destruct (last_within q l) as [s1 |] eqn:L.
  - intros E. injection E as ->.
    destruct (IH s eq_refl) as (l1 & l2 & -> & W & Hno).
    exists (s0 :: l1), l2. auto.
  - destruct (within q s0) eqn:W0; [| discriminate].
    intros E. injection E as ->. exists [], l. repeat split; auto.
    intros s' I'. destruct (within q s') eqn:W'; [| reflexivity].
    destruct (last_within_some q l s' I' W') as [s2 L2]. congruence.
Qed.

(** In a well-formed sequence the line after a line is one step further. *)
Lemma stepwise_follower (l1 l2 : File) (s s2 : Sample) (b : R) :
  stepwise b (l1 ++ s :: s2 :: l2) -> fst s2 = fst s + alh.
Proof.
  intros W.
  assert (N : nth_error (l1 ++ s :: s2 :: l2) (List.length l1) = Some s).
  { rewrite nth_error_app2 by lia. rewrite Nat.sub_diag. reflexivity. }
  assert (N' : nth_error (l1 ++ s :: s2 :: l2) (S (List.length l1)) = Some s2).
  { rewrite nth_error_app2 by lia.
    replace (S (List.length l1) - List.length l1)%nat with 1%nat by lia.
    reflexivity. }
  exact (proj1 (stepwise_next _ _ _ _ _ _ _ _ _ _ _ _ W N N')).
Qed.

End MoreOnRuns.

Lemma area_nonneg (mn h b : R) : 0 < h -> 0 <= b + mn * h -> 0 <= area mn h b.
Proof. intros Hh Hb. unfold area. nra. Qed.

Lemma radius_nonneg (mn h b : R) :
  0 < h -> 0 <= b + mn * h -> 0 <= hydraulic_radius mn h b.
Proof.
  intros Hh Hb. unfold hydraulic_radius, Rdiv.
  apply Rmult_le_pos; [apply area_nonneg; assumption |].
  left. apply Rinv_0_lt_compat. apply perimeter_pos.
Qed.

(** The Agroskin discharge is always real. *)
Lemma agroskin_discharge_real (sl mn nb h b : R) :
  exists x, discharge sl mn nb h 1 b = inr (PFloat x).
Proof. unfold discharge, coefficient. cbn. eauto. Qed.

(** A Pavlovsky run from a negative hydraulic radius. *)
Lemma pavlovsky_negative_radius_run :
  compute_channel 1 0 0 1 1 0 (-1) 1 1 = (inl TypeError, Some [(-1, PComplex)]).
Proof.
  assert (Hv : valid 0 1 1 0).
  { unfold valid. repeat split; try lra. left; reflexivity. }
  assert (Ev : exists ev, evaluate 0 0 1 1 0 (-1) = inr ev /\ ev_qt ev = PComplex).
  { rewrite (evaluate_spec 0 0 1 1 0 Hv). rewrite radius_at_minus_one.
    unfold coefficient. cbn [Z.eqb].
    destruct (Rle_dec 1 (-1)); [lra |].
    rewrite (pow_neg_base_complex (-1) (1.3 * sqrt 1)); [| lra |].
    - eexists. split; reflexivity.
    - intros k E. rewrite sqrt_1 in E.
      assert (E' : IZR (10 * k) = IZR 13) by (rewrite mult_IZR; lra).
      apply eq_IZR in E'. lia. }
  destruct Ev as (ev0 & Ev & Q0).
  rewrite (compute_channel_valid 1 0 0 1 1 0 (-1) 1 1 Hv).
  change (Z.to_nat 1) with 1%nat.
  unfold trace, outcome.
  rewrite (search_complex 1 0 0 1 1 0 1 0 (-1) track0 [] ev0 Ev Q0).
  reflexivity.
Qed.

Lemma returns_on_sound_geometry
    (q sl mn nb h : R) (jcz : Z) (b0 : R) (n : Z) (alh : R) :
  valid sl nb h jcz -> 0 <= b0 + mn * h -> 0 <= alh ->
  exists r l, compute_channel q sl mn nb h jcz b0 n alh = (inr r, Some l).
Proof.
  intros Hv Hb Ha. apply returns_on_nonneg_radius; [exact Hv |].
  intros i _. apply radius_nonneg; [apply Hv |].
  pose proof (pos_INR i). nra.
Qed.

(** ** X2: an empty budget *)

(** X2.  With a budget [n <= 0] on validated parameters no step runs: the
    file is opened and left empty, and the all-zero record is returned. *)
Theorem empty_budget_returns_zero
    (q sl mn nb h : R) (jcz : Z) (b0 : R) (n : Z) (alh : R) :
  valid sl nb h jcz -> (n <= 0)%Z ->
  compute_channel q sl mn nb h jcz b0 n alh = (inr zero_record, Some []).
Proof.
  intros Hv Hn.
  rewrite (compute_channel_valid q sl mn nb h jcz b0 n alh Hv).
  replace (Z.to_nat n) with 0%nat by lia.
  unfold trace, outcome. cbn [search io_ret fst snd bind].
  rewrite finish_track0. reflexivity.
Qed.

Lemma empty_budget_returns_zero_witness :
  compute_channel 5 0.001 1.5 0.025 1.2 2 0.5 (-3) 0.01
  = (inr zero_record, Some []).
Proof.
  apply (empty_budget_returns_zero 5 0.001 1.5 0.025 1.2 2 0.5 (-3) 0.01).
  - unfold valid. repeat split; try lra. right; right; reflexivity.
  - lia.
Defined.

(** ** X3: stopping early *)

(** X3.  Whatever the arithmetic, a call that returns having written fewer
    than [n] lines left the loop at its [break]: its last line holds a float
    discharge for which the test [qt < 1.2 * q] failed. *)
Theorem early_stop_is_overshoot
    (A : Machine.Arith) (q sl mn nb h : Machine.carrier A) (jcz : Z)
    (b0 : Machine.carrier A) (n : Z) (alh : Machine.carrier A)
    (r : Machine.ResultRecord A) (l : Machine.File A) :
  Machine.compute_channel A q sl mn nb h jcz b0 n alh = (inr r, Some l) ->
  (List.length l < Z.to_nat n)%nat ->
  exists l' b x,
    l = l' ++ [(b, Machine.VFloat A x)] /\
    Machine.flt A x (Machine.fmul A (Machine.flit A 12 10) q) = false.
Proof.
  intros E Len.
  destruct (m_returned A q sl mn nb h jcz b0 n alh r l E) as (-> & t & O & _).
  exact (m_early_return A q sl mn nb h jcz alh _ _ _ _ O Len).
Qed.

Lemma early_stop_is_overshoot_witness :
  exists r l l' b x,
    Machine.compute_channel Exact 0 0 0 1 1 1 1 2 1 = (inr r, Some l) /\
    (List.length l < Z.to_nat 2)%nat /\
    l = l' ++ [(b, Machine.VFloat Exact x)] /\
    Machine.flt Exact x (Machine.fmul Exact (Machine.flit Exact 12 10) 0)
    = false.
Proof.
  assert (Hv : valid 0 1 1 1) by (apply agroskin_flat_valid; lra).
  destruct (returns_on_sound_geometry 0 0 0 1 1 1 1 2 1 Hv ltac:(lra) ltac:(lra))
    as (r & l & E).
  assert (Len : (List.length l < Z.to_nat 2)%nat).
  { destruct (returned _ _ _ _ _ _ _ _ _ _ _ E) as (_ & -> & _).
    change (Z.to_nat 2) with 2%nat.
    pose proof (agroskin_flat_evaluate 0 1 1 ltac:(lra) ltac:(lra) 1) as Ev.
    destruct (run_cases 0 0 0 1 1 1 1 1 1 track0)
      as [(e & E1 & _) | [(ev & E1 & Q & _)
         | [(ev & x & E1 & Q & Hx & _) | (ev & x & _ & _ & _ & T & _)]]];
      try (rewrite Ev in E1; try discriminate; injection E1 as <-; cbn in Q;
           try discriminate; injection Q as <-; lra).
    rewrite T. cbn. lia. }
  pose proof (exact_run _ _ _ _ _ _ _ _ _ _ _ E) as E'.
  cbn [res_map option_map] in E'.
  assert (Len' : (List.length (exact_file l) < Z.to_nat 2)%nat)
    by (unfold exact_file; rewrite length_map; exact Len).
  destruct (early_stop_is_overshoot Exact 0 0 0 1 1 1 1 2 1 _ _ E' Len')
    as (l' & b & x & H1 & H2).
  exists (exact_record r), (exact_file l), l', b, x. auto.
Defined.

(** The width after the selected one, when the last line is above the
    target. *)
Lemma brackets_target
    (q sl mn nb h : R) (jcz : Z) (b0 : R) (n : Z) (alh : R)
    (r : ResultRecord) (l l' : File) (s0 : Sample) (b x : R) :
  compute_channel q sl mn nb h jcz b0 n alh = (inr r, Some l) ->
  In s0 l -> within q s0 = true ->
  l = l' ++ [(b, PFloat x)] -> q < x ->
  exists u v,
    discharge sl mn nb h jcz (bt r) = inr (PFloat u) /\ u <= q /\
    In (bt r + alh, PFloat v) l /\
    discharge sl mn nb h jcz (bt r + alh) = inr (PFloat v) /\ q < v.
Proof.
  intros E I0 W0 Hl Hx.
  destruct (last_within_some q l s0 I0 W0) as [s L].
  destruct (returned_some _ _ _ _ _ _ _ _ _ _ _ E s L)
    as (Hbt & Hqth & Hd & _).
  pose proof (returned_stepwise _ _ _ _ _ _ _ _ _ _ _ E) as W.
  pose proof (returned_valid _ _ _ _ _ _ _ _ _ _ _ E) as Hv.
  destruct (last_within_split q l s L) as (l1 & l2 & Hsplit & Ws & Hno).
  destruct l2 as [| s2 l2].
  - (* the selected line would be the last one, which is above the target *)
    exfalso. rewrite Hl in Hsplit.
    apply app_inj_tail in Hsplit. destruct Hsplit as [_ <-].
    unfold within in Ws. cbn [snd] in Ws.
    destruct (Rle_dec x q); [lra | discriminate].
  - assert (I2 : In s2 l) by (rewrite Hsplit; apply in_or_app; right; right; left; reflexivity).
    assert (W2 : within q s2 = false) by (apply Hno; left; reflexivity).
    destruct (returned _ _ _ _ _ _ _ _ _ _ _ E) as (_ & Hlines & t & O & _).
    assert (R2 : exists v, snd s2 = PFloat v).
    { rewrite Hlines in I2. exact (outcome_real _ _ _ _ _ _ _ _ _ _ _ _ O I2). }
    destruct R2 as [v Hv2].
    destruct (stepwise_evaluated _ _ _ _ _ _ _ _ _ _ W I2) as (ev & Ev & Q).
    destruct (evaluate_fields sl mn nb h jcz Hv _ ev Ev) as (_ & _ & _ & D2).
    assert (Hw : fst s2 = bt r + alh).
    { rewrite Hbt. rewrite Hsplit in W.
      exact (stepwise_follower q sl mn nb h jcz alh l1 l2 s s2 b0 W). }
    unfold within in Ws, W2. rewrite Hv2 in W2. rewrite <- Hqth in Ws.
    destruct (qth r) as [u |]; [| discriminate].
    exists u, v. split; [exact Hd |].
    split; [destruct (Rle_dec u q); [assumption | discriminate] |].
    rewrite <- Hw. split; [| split].
    + rewrite <- Hv2. destruct s2; exact I2.
    + rewrite D2, Q, Hv2. reflexivity.
    + destruct (Rle_dec v q); [discriminate | lra].
Qed.

(** ** X4: the selected width brackets the target *)

(** X4.  When a call returns a width found within the target although its
    last line is above the target, the next width of the sweep was evaluated
    too and its discharge is above the target: the target discharge lies
    between the discharges at [bt] and at [bt + alh]. *)
Theorem selected_width_brackets_target
    (q sl mn nb h : R) (jcz : Z) (b0 : R) (n : Z) (alh : R)
    (r : ResultRecord) (l l' : File) (s0 : Sample) (b x : R) :
  compute_channel q sl mn nb h jcz b0 n alh = (inr r, Some l) ->
  In s0 l -> within q s0 = true ->
  l = l' ++ [(b, PFloat x)] -> q < x ->
  exists u v,
    discharge sl mn nb h jcz (bt r) = inr (PFloat u) /\ u <= q /\
    In (bt r + alh, PFloat v) l /\
    discharge sl mn nb h jcz (bt r + alh) = inr (PFloat v) /\ q < v.
Proof.
  intros E I0 W0 Hl Hx.
  exact (brackets_target q sl mn nb h jcz b0 n alh r l l' s0 b x E I0 W0 Hl Hx).
Qed.

(** ** X5: what a returned record holds *)



(** ** A concrete Manning run that crosses its target

    Vertical banks, depth 3, roughness 1, slope 1: at width 0 the discharge
    is 0, at width 3 the hydraulic radius is 1 and the discharge is 9. *)

Lemma Rpower_one (y : R) : Rpower 1 y = 1.
Proof. unfold Rpower. rewrite ln_1, Rmult_0_r. exact exp_0. Qed.

Lemma Rmax_zero_zero : Rmax 0 0 = 0.
Proof. unfold Rmax. destruct (Rle_dec 0 0); reflexivity. Qed.

Lemma crossing_valid : valid 1 1 3 2.
Proof. unfold valid. repeat split; try lra. right; right; reflexivity. Qed.

Lemma crossing_radius_0 : hydraulic_radius 0 3 0 = 0.
Proof. unfold hydraulic_radius, area. lra. Qed.

Lemma crossing_radius_3 : hydraulic_radius 0 3 (0 + 3) = 1.
Proof.
  unfold hydraulic_radius, area, perimeter. cbv zeta.
  rewrite sqrt_one_plus_zero.
  destruct (Rle_dec (0 + 3 + 2 * 3 * 1) 0); [lra | field].
Qed.

Lemma crossing_discharge_0 : discharge 1 0 1 3 2 0 = inr (PFloat 0).
Proof.
  unfold discharge. rewrite crossing_radius_0.
  unfold coefficient. cbn [Z.eqb Pos.eqb].
  rewrite pow_zero_base by lra. cbn [bind ret mul].
  unfold area. replace ((0 + 0 * 3) * 3) with 0 by lra.
  rewrite !Rmult_0_l. reflexivity.
Qed.

Lemma crossing_discharge_3 : discharge 1 0 1 3 2 (0 + 3) = inr (PFloat 9).
Proof.
  unfold discharge. rewrite crossing_radius_3.
  unfold coefficient. cbn [Z.eqb Pos.eqb].
  rewrite pow_pos_base by lra. cbn [bind ret mul].
  rewrite Rpower_one.
  replace (Rmax (1 * 1) 0) with 1
    by (unfold Rmax; destruct (Rle_dec (1 * 1) 0); lra).
  rewrite sqrt_1. unfold area.
  replace ((0 + 3 + 0 * 3) * 3 * (1 / 1 * 1) * 1) with 9 by lra.
  reflexivity.
Qed.

Lemma crossing_run :
  exists r,
    compute_channel 5 1 0 1 3 2 0 5 3
    = (inr r, Some [(0, PFloat 0); (0 + 3, PFloat 9)]).
Proof.
  pose proof crossing_valid as Hv.
  rewrite (compute_channel_valid 5 1 0 1 3 2 0 5 3 Hv).
  change (Z.to_nat 5) with 5%nat.
  destruct (run_cases 5 1 0 1 3 2 3 4 0 track0)
    as [(e & E & _) | [(ev & E & Q & _)
       | [(ev & x & E & Q & Hx & T & O) | (ev & x & E & Q & Hx & _)]]];
    try (destruct (evaluate_total 1 0 1 3 2 Hv 0); congruence);
    destruct (evaluate_fields 1 0 1 3 2 Hv _ _ E) as (_ & _ & _ & D);
    rewrite crossing_discharge_0, Q in D; try discriminate;
    injection D as <-; [| lra].
  rewrite T, O.
  destruct (run_cases 5 1 0 1 3 2 3 3 (0 + 3) (update 5 track0 0 ev 0))
    as [(e & E' & _) | [(ev' & E' & Q' & _)
       | [(ev' & x' & E' & Q' & Hx' & _) | (ev' & x' & E' & Q' & Hx' & T' & O')]]];
    try (destruct (evaluate_total 1 0 1 3 2 Hv (0 + 3)); congruence);
    destruct (evaluate_fields 1 0 1 3 2 Hv _ _ E') as (_ & _ & _ & D');
    rewrite crossing_discharge_3, Q' in D'; try discriminate;
    injection D' as <-; [lra |].
  rewrite T', O'. cbn [bind]. rewrite finish_spec. eexists. reflexivity.
Qed.

Lemma selected_width_brackets_target_witness :
  exists r u v,
    compute_channel 5 1 0 1 3 2 0 5 3
    = (inr r, Some [(0, PFloat 0); (0 + 3, PFloat 9)]) /\
    discharge 1 0 1 3 2 (bt r) = inr (PFloat u) /\ u <= 5 /\
    In (bt r + 3, PFloat v) [(0, PFloat 0); (0 + 3, PFloat 9)] /\
    discharge 1 0 1 3 2 (bt r + 3) = inr (PFloat v) /\ 5 < v.
Proof.
  destruct crossing_run as [r E].
  assert (W0 : within 5 (0, PFloat 0) = true).
  { unfold within. cbn [snd]. destruct (Rle_dec 0 5); [reflexivity | lra]. }
  destruct (selected_width_brackets_target 5 1 0 1 3 2 0 5 3 r _
              [(0, PFloat 0)] (0, PFloat 0) (0 + 3) 9 E
              ltac:(left; reflexivity) W0 eq_refl ltac:(lra))
    as (u & v & H).
  exists r, u, v. split; [exact E | exact H].
Defined.

(** With slope 0 and a hydraulic radius that is not negative the
    discharge is 0. *)
Lemma flat_discharge_zero (mn nb h : R) (jcz : Z) (b : R) :
  valid 0 nb h jcz -> 0 <= hydraulic_radius mn h b ->
  discharge 0 mn nb h jcz b = inr (PFloat 0).
Proof.
  intros Hv Hr. unfold discharge.
  destruct (coefficient_nonneg 0 nb h jcz Hv _ Hr) as [c ->].
  cbn [bind ret mul]. rewrite Rmult_0_r, Rmax_zero_zero, sqrt_0, Rmult_0_r.
  reflexivity.
Qed.

(** * The command line *)

Section Prompting.

Variables (float_of : string -> option R) (int_of : string -> option Z).

Local Abbreviation prompt_float := (prompt_float float_of).
Local Abbreviation prompt_int := (prompt_int int_of).
Local Abbreviation prompt_float_from := (prompt_float_from float_of).
Local Abbreviation prompt_int_from := (prompt_int_from int_of).

Lemma prompt_float_skips (msg : string) (bad : list string) :
  Forall (fun s => float_of s = None) bad ->
  forall lines out,
    prompt_float_from msg (bad ++ lines) out =
    prompt_float_from msg lines (out ++ float_retries msg bad).
Proof.
  induction 1 as [| s bad Hs _ IH]; intros lines out.
  - cbn. rewrite app_nil_r. reflexivity.
  - cbn [app prompt_float_from]. rewrite Hs, IH.
    unfold float_retries. cbn [flat_map]. rewrite <- app_assoc. reflexivity.
Qed.

(** What a float prompt returns, read backwards. *)
Lemma prompt_float_inv (msg : string) (lines : list string) :
  forall out r w',
    prompt_float_from msg lines out = (r, w') ->
    exists bad,
      Forall (fun s => float_of s = None) bad /\
      stdout w' = out ++ float_retries msg bad ++ [Ask msg] /\
      match r with
      | Some v => exists good, lines = bad ++ good :: stdin w' /\
                               float_of good = Some v
      | None => lines = bad /\ stdin w' = []
      end.
Proof.
  induction lines as [| s lines IH]; intros out r w' E.
  - cbn in E. injection E as <- <-. exists []. cbn. auto.
  - cbn [prompt_float_from] in E. destruct (float_of s) as [v |] eqn:Hs.
    + injection E as <- <-. exists []. cbn. eauto.
    + destruct (IH _ _ _ E) as (bad & Hbad & Hout & Hr).
      exists (s :: bad). split; [constructor; assumption |]. split.
      * rewrite Hout. unfold float_retries. cbn [flat_map].
        rewrite <- !app_assoc. reflexivity.
      * destruct r as [v |].
        -- destruct Hr as (good & -> & Hg). exists good. auto.
        -- destruct Hr as [-> ->]. auto.
Qed.

Lemma float_retries_dialogue (msg : string) (bad : list string) :
  Forall is_dialogue (float_retries msg bad ++ [Ask msg]).
Proof.
  apply Forall_app. split; [| repeat constructor].
  unfold float_retries. induction bad as [| s bad IH]; [constructor |].
  cbn [flat_map app]. repeat constructor. exact IH.
Qed.

Lemma prompt_float_converses (msg : string) : converses 1 (prompt_float msg).
Proof.
  intros w r w' E. unfold prompt_float in E.
  destruct (prompt_float_inv _ _ _ _ _ E) as (bad & _ & Hout & Hr).
  destruct r as [v |].
  - destruct Hr as (good & Hl & _).
    exists (bad ++ [good]), (float_retries msg bad ++ [Ask msg]).
    rewrite <- app_assoc. cbn [app].
    repeat split; auto using float_retries_dialogue; try discriminate.
    intros _. rewrite length_app. cbn. lia.
  - destruct Hr as [Hl Hnil].
    exists bad, (float_retries msg bad ++ [Ask msg]).
    rewrite Hnil, app_nil_r.
    repeat split; auto using float_retries_dialogue. intros C; contradiction.
Qed.

(** What an integer prompt returns, read backwards. *)
Lemma prompt_int_inv (msg : string) (allowed : option (list Z))
    (lines : list string) :
  forall out r w',
    prompt_int_from msg allowed lines out = (r, w') ->
    exists bad evs,
      Forall (fun s => forall v, int_of s = Some v ->
                       exists a, allowed = Some a /\ ~ In v a) bad /\
      stdout w' = out ++ evs /\ Forall is_dialogue evs /\
      match r with
      | Some v => exists good, lines = bad ++ good :: stdin w' /\
                               int_of good = Some v /\
                               forall a, allowed = Some a -> In v a
      | None => lines = bad /\ stdin w' = []
      end.
Proof.
  induction lines as [| s lines IH]; intros out r w' E.
  - cbn in E. injection E as <- <-. exists [], [Ask msg]. cbn.
    repeat split; auto. repeat constructor.
  - cbn [prompt_int_from] in E.
    assert (Hgo : forall evs0,
              Forall is_dialogue evs0 ->
              (forall v, int_of s = Some v ->
                 exists a, allowed = Some a /\ ~ In v a) ->
              prompt_int_from msg allowed lines (out ++ evs0) = (r, w') ->
              exists bad evs,
                Forall (fun s => forall v, int_of s = Some v ->
                          exists a, allowed = Some a /\ ~ In v a) bad /\
                stdout w' = out ++ evs /\ Forall is_dialogue evs /\
                match r with
                | Some v => exists good,
                    s :: lines = bad ++ good :: stdin w' /\
                    int_of good = Some v /\
                    forall a, allowed = Some a -> In v a
                | None => s :: lines = bad /\ stdin w' = []
                end).
    { intros evs0 Hd Hrej E'.
      destruct (IH _ _ _ E') as (bad & evs & Hbad & Hout & Hev & Hr).
      exists (s :: bad), (evs0 ++ evs). split; [constructor; assumption |].
      split; [rewrite Hout, app_assoc; reflexivity |].
      split; [apply Forall_app; auto |].
      destruct r as [v |].
      - destruct Hr as (good & -> & Hg). exists good. auto.
      - destruct Hr as [-> ->]. auto. }
    destruct (int_of s) as [v |] eqn:Hs.
    + destruct allowed as [a |].
      * destruct (existsb (Z.eqb v) a) eqn:Hin.
        -- injection E as <- <-. exists [], [Ask msg]. cbn.
           repeat split; auto; [repeat constructor |].
           exists s. repeat split; auto.
           intros a' Ha. injection Ha as <-.
           apply existsb_exists in Hin. destruct Hin as (x & Hx & Heq).
           apply Z.eqb_eq in Heq. subst. exact Hx.
        -- apply (Hgo [Ask msg; SayAllowed a]); [repeat constructor | | exact E].
           intros v' Hv'. injection Hv' as <-. exists a. split; [reflexivity |].
           intros Hx.
           assert (existsb (Z.eqb v) a = true); [| congruence].
           apply existsb_exists. exists v. split; [exact Hx | apply Z.eqb_refl].
      * injection E as <- <-. exists [], [Ask msg]. cbn.
        repeat split; auto; [repeat constructor |].
        exists s. repeat split; auto. discriminate.
    + apply (Hgo [Ask msg; Say "Please enter an integer."]);
        [repeat constructor | discriminate | exact E].
Qed.

Lemma prompt_int_converses (msg : string) (allowed : option (list Z)) :
  converses 1 (prompt_int msg allowed).
Proof.
  intros w r w' E. unfold prompt_int in E.
  destruct (prompt_int_inv _ _ _ _ _ _ E) as (bad & evs & _ & Hout & Hev & Hr).
  destruct r as [v |].
  - destruct Hr as (good & Hl & _).
    exists (bad ++ [good]), evs. rewrite <- app_assoc. cbn [app].
    repeat split; auto; try discriminate.
    intros _. rewrite length_app. cbn. lia.
  - destruct Hr as [Hl Hnil].
    exists bad, evs. rewrite Hnil, app_nil_r.
    repeat split; auto. intros C; contradiction.
Qed.

Lemma ret_converses {A} (a : A) : converses 0 (con_ret a).
Proof.
  intros w r w' E. injection E as <- <-. exists [], [].
  rewrite app_nil_r. repeat split; auto. discriminate.
Qed.

Lemma say_converses (s : string) : converses 0 (say s).
Proof.
  intros w r w' E. injection E as <- <-. exists [], [Say s]. cbn.
  repeat split; auto; [repeat constructor | discriminate].
Qed.

Lemma bind_converses {A B} (k1 k2 : nat) (c : console A) (k : A -> console B) :
  converses k1 c -> (forall a, converses k2 (k a)) ->
  converses (k1 + k2) (con_bind c k).
Proof.
  intros Hc Hk w r w' E. unfold con_bind in E.
  destruct (c w) as [[a |] w1] eqn:E1.
  - destruct (Hc _ _ _ E1) as (u1 & e1 & Hin1 & Hout1 & Hd1 & _ & Hk1).
    destruct (Hk a _ _ _ E) as (u2 & e2 & Hin2 & Hout2 & Hd2 & Hnil & Hk2).
    exists (u1 ++ u2), (e1 ++ e2).
    rewrite Hin1, Hin2, Hout2, Hout1, <- !app_assoc.
    repeat split; auto; [apply Forall_app; auto |].
    intros Hr. rewrite length_app.
    specialize (Hk1 ltac:(discriminate)). specialize (Hk2 Hr). lia.
  - injection E as <- <-.
    destruct (Hc _ _ _ E1) as (u1 & e1 & Hin1 & Hout1 & Hd1 & Hnil & _).
    exists u1, e1. repeat split; auto. intros C; contradiction.
Qed.

Lemma ask_inputs_converses : converses 7 (ask_inputs float_of int_of).
Proof.
  unfold ask_inputs.
  change 7%nat with (0 + (1 + (0 + (1 + (1 + (1 + (0 + (1 + (0 + (1 + (0 + (1 + 0))))))))))))%nat.
  repeat (apply bind_converses;
          [first [apply say_converses | apply prompt_float_converses
                 | apply prompt_int_converses] | intros ?]).
  apply ret_converses.
Qed.

(** The selector that the dialogue yields is one of 0, 1, 2. *)
Lemma ask_inputs_selector (w w1 : World) (q sl mn nb h : R) (jcz : Z) (b0 : R) :
  ask_inputs float_of int_of w = (Some (q, sl, mn, nb, h, jcz, b0), w1) ->
  In jcz [0; 1; 2]%Z.
Proof.
  unfold ask_inputs, con_bind. intros E.
  repeat match type of E with
         | context [match ?c ?x with pair _ _ => _ end] =>
             let r := fresh "r" in let w := fresh "w" in let P := fresh "P" in
             destruct (c x) as [[r |] w] eqn:P; [| discriminate E]
         end.
  injection E as <- <- <- <- <- <- <- <-.
  match goal with
  | P : prompt_int _ _ _ = _ |- _ =>
      unfold prompt_int in P;
      destruct (prompt_int_inv _ _ _ _ _ _ P) as (_ & _ & _ & _ & _ & good & _ & _ & Hin)
  end.
  exact (Hin _ eq_refl).
Qed.

End Prompting.

Section MainFacts.

Variables (float_of : string -> option R) (int_of : string -> option Z).

Local Abbreviation inputs := (inputs float_of int_of).
Local Abbreviation ask_inputs := (ask_inputs float_of int_of).
Local Abbreviation main := (main float_of int_of).

Lemma converses_weaken {A} (k k' : nat) (c : console A) :
  (k' <= k)%nat -> converses k c -> converses k' c.
Proof.
  intros Hle Hc w r w' E.
  destruct (Hc _ _ _ E) as (used & evs & H1 & H2 & H3 & H4 & H5).
  exists used, evs. repeat split; auto. intros Hr. specialize (H5 Hr). lia.
Qed.

Lemma inputs_missing (a : Namespace) : missing a -> inputs a = ask_inputs.
Proof.
  unfold missing, inputs. intros Hm.
  destruct (a_q a), (a_sl a), (a_mn a), (a_nb a), (a_h a), (a_jcz a), (a_b0 a);
    try reflexivity.
  exfalso. repeat (destruct Hm as [Hm | Hm]; [discriminate |]). discriminate.
Qed.

Lemma inputs_given (q sl mn nb h : R) (jcz : Z) (b0 : R) (n : Z) (alh : R)
    (p np : bool) (w : World) :
  inputs (given q sl mn nb h jcz b0 n alh p np) w
  = (Some (q, sl, mn, nb, h, jcz, b0), w).
Proof. reflexivity. Qed.

Lemma missing_or_given (a : Namespace) :
  missing a \/
  exists q sl mn nb h jcz b0,
    a = given q sl mn nb h jcz b0 (a_n a) (a_alh a) (a_plot a) (a_noplot a).
Proof.
  destruct a as [[q |] [sl |] [mn |] [nb |] [h |] [jcz |] [b0 |] n alh p np];
    unfold missing; cbn; auto 8.
  right. exists q, sl, mn, nb, h, jcz, b0. reflexivity.
Qed.

Lemma inputs_converses (a : Namespace) : converses 0 (inputs a).
Proof.
  destruct (missing_or_given a) as [Hm | (q & sl & mn & nb & h & jcz & b0 & ->)].
  - rewrite (inputs_missing a Hm).
    apply (converses_weaken 7); [lia | apply ask_inputs_converses].
  - intros w r w' E. rewrite inputs_given in E. injection E as <- <-.
    exists [], []. rewrite app_nil_r. repeat split; auto. discriminate.
Qed.

Lemma inputs_selector (a : Namespace) (w w1 : World)
    (q sl mn nb h : R) (jcz : Z) (b0 : R) :
  inputs a w = (Some (q, sl, mn, nb, h, jcz, b0), w1) ->
  a_jcz a = Some jcz \/ In jcz [0; 1; 2]%Z.
Proof.
  destruct (missing_or_given a) as [Hm | (q' & sl' & mn' & nb' & h' & jcz' & b0' & ->)].
  - rewrite (inputs_missing a Hm). intros E. right.
    exact (ask_inputs_selector _ _ _ _ _ _ _ _ _ _ _ E).
  - rewrite inputs_given. intros E. injection E as <- <- <- <- <- <- <- <-.
    left. reflexivity.
Qed.

(** The three ways [main] ends. *)
Lemma main_cases (a : Namespace) (g : gnuplot_state) (w : World) :
  exists used evs,
    stdin w = used ++ stdin (r_world (main a g w)) /\
    Forall is_dialogue evs /\
    ((r_end (main a g w) = UncaughtEOF /\
      stdout (r_world (main a g w)) = stdout w ++ evs /\
      stdin (r_world (main a g w)) = [] /\
      r_file (main a g w) = None) \/
     exists q sl mn nb h jcz b0 w1,
       inputs a w = (Some (q, sl, mn, nb, h, jcz, b0), w1) /\
       ((exists e,
           compute_channel q sl mn nb h jcz b0 (a_n a) (a_alh a)
           = (inl e, r_file (main a g w)) /\
           r_end (main a g w) = SysExit 1 /\
           stdout (r_world (main a g w)) = stdout w ++ evs ++ [SayError e]) \/
        (exists r,
           compute_channel q sl mn nb h jcz b0 (a_n a) (a_alh a)
           = (inr r, r_file (main a g w)) /\
           r_end (main a g w) = Done /\
           stdout (r_world (main a g w)) =
           stdout w ++ evs ++
           [SayResult r; Say "Data written to 'qfb.dat' (columns: b, qt)."] ++
           (if a_plot a && negb (a_noplot a) then plot g else [])))).
Proof.
  unfold main.
  destruct (inputs a w) as [[[[[[[[q sl] mn] nb] h] jcz] b0] |] w1] eqn:E.
  - destruct (inputs_converses a _ _ _ E) as (used & evs & Hin & Hout & Hd & _).
    exists used, evs.
    destruct (compute_channel q sl mn nb h jcz b0 (a_n a) (a_alh a))
      as [[e | r] f] eqn:C; cbn [r_world r_end r_file stdin stdout].
    + repeat split; auto. right. exists q, sl, mn, nb, h, jcz, b0, w1.
      split; [reflexivity |]. left. exists e.
      rewrite Hout, app_assoc. auto.
    + repeat split; auto. right. exists q, sl, mn, nb, h, jcz, b0, w1.
      split; [reflexivity |]. right. exists r.
      rewrite Hout. repeat split; auto.
      destruct (a_plot a && negb (a_noplot a));
        cbn [r_world stdout]; rewrite <- ?app_assoc; cbn [app];
        rewrite ?app_nil_r; reflexivity.
  - destruct (inputs_converses a _ _ _ E) as (used & evs & Hin & Hout & Hd & Hnil & _).
    exists used, evs. cbn [r_world r_end r_file].
    split; [exact Hin |]. split; [exact Hd |]. left. auto.
Qed.

End MainFacts.

(** With a selector among 0, 1, 2 the selector message is never raised. *)
Lemma selector_message_not_raised
    (q sl mn nb h : R) (jcz : Z) (b0 : R) (n : Z) (alh : R)
    (e : exn) (f : option File) :
  In jcz [0; 1; 2]%Z ->
  compute_channel q sl mn nb h jcz b0 n alh = (inl e, f) ->
  e <> ValueError "jcz must be 0 (Pawlowski), 1 (Agroskin), or 2 (Manning).".
Proof.
  intros Hj E.
  assert (Hj' : (jcz = 0 \/ jcz = 1 \/ jcz = 2)%Z).
  { cbn in Hj. intuition auto. }
  destruct (valid_or_invalid sl nb h jcz) as [Hv | Hinv].
  - destruct (raises_only_on_complex q sl mn nb h jcz b0 n alh Hv e f E) as [-> _].
    discriminate.
  - revert E. unfold compute_channel, validate.
    destruct (Rle_dec nb 0); [intros E; injection E as <- _; discriminate |].
    destruct (Rle_dec h 0); [intros E; injection E as <- _; discriminate |].
    destruct (Rlt_dec sl 0); [intros E; injection E as <- _; discriminate |].
    exfalso. destruct Hinv as [H1 | [H1 | [H1 | (H0 & H1 & H2)]]]; try lra.
    intuition auto.
Qed.

(** ** X8: the float prompt *)

(** X8.  [prompt_float] skips the lines that do not parse, answering each
    with one retry message, and returns the first line that parses, leaving
    the lines after it unread; if no line parses it uses up the input and
    ends with EOFError. *)
Theorem prompt_float_returns_first_number
    (float_of : string -> option R) (msg : string)
    (bad : list string) (out : list event) :
  Forall (fun s => float_of s = None) bad ->
  (forall good v rest,
     float_of good = Some v ->
     prompt_float float_of msg (mkWorld (bad ++ good :: rest) out)
     = (Some v, mkWorld rest (out ++ float_retries msg bad ++ [Ask msg]))) /\
  prompt_float float_of msg (mkWorld bad out)
  = (None, mkWorld [] (out ++ float_retries msg bad ++ [Ask msg])).
Proof.
  intros Hbad. unfold prompt_float. cbn [stdin stdout]. split.
  - intros good v rest Hg.
    rewrite (prompt_float_skips float_of msg bad Hbad).
    cbn [prompt_float_from]. rewrite Hg, <- app_assoc. reflexivity.
  - rewrite <- (app_nil_r bad) at 1.
    rewrite (prompt_float_skips float_of msg bad Hbad).
    cbn [prompt_float_from]. rewrite <- app_assoc. reflexivity.
Qed.

Lemma prompt_float_returns_first_number_witness :
  prompt_float digit_float "> " (mkWorld ["x"; "1"; "2"]%string [])
  = (Some 1, mkWorld ["2"%string]
               [Ask "> "; Say "Please enter a number."; Ask "> "]).
Proof.
  assert (Hbad : Forall (fun s => digit_float s = None) ["x"%string])
    by (repeat constructor).
  exact (proj1 (prompt_float_returns_first_number digit_float "> "
                  ["x"%string] [] Hbad) "1"%string 1 ["2"%string] eq_refl).
Defined.

(** ** X9: the integer prompt *)

(** X9.  What [prompt_int] returns is the value of the first line that
    parses as an integer and, when a set is given, belongs to it: every line
    skipped before either does not parse or parses outside the set, and the
    lines after it are left unread. *)
Theorem prompt_int_returns_first_allowed
    (int_of : string -> option Z) (msg : string) (allowed : option (list Z))
    (w w' : World) (v : Z) :
  prompt_int int_of msg allowed w = (Some v, w') ->
  exists bad good,
    stdin w = bad ++ good :: stdin w' /\
    int_of good = Some v /\
    (forall a, allowed = Some a -> In v a) /\
    Forall (fun s => forall v', int_of s = Some v' ->
                     exists a, allowed = Some a /\ ~ In v' a) bad.
Proof.
  intros E. unfold prompt_int in E.
  destruct (prompt_int_inv int_of _ _ _ _ _ _ E)
    as (bad & evs & Hbad & _ & _ & good & Hl & Hg & Hin).
  exists bad, good. auto.
Qed.

Lemma prompt_int_returns_first_allowed_witness :
  exists bad good,
    ["x"; "2"; "1"; "0"]%string = bad ++ good :: ["0"%string] /\
    digit_int good = Some 1%Z /\
    (forall a, Some [0; 1]%Z = Some a -> In 1%Z a) /\
    Forall (fun s => forall v', digit_int s = Some v' ->
                     exists a, Some [0; 1]%Z = Some a /\ ~ In v' a) bad.
Proof.
  apply (prompt_int_returns_first_allowed digit_int "> " (Some [0; 1]%Z)
           (mkWorld ["x"; "2"; "1"; "0"]%string [])
           (mkWorld ["0"%string]
              [Ask "> "; Say "Please enter an integer.";
               Ask "> "; SayAllowed [0; 1]%Z; Ask "> "]) 1%Z).
  reflexivity.
Defined.

(** ** X10: the exit status *)

(** X10.  When the program ends through [sys.exit], either argparse ended
    it (status 0 after the help text, status 2 after a refused argument),
    or the status is 1 and [compute_channel], called with the seven values
    that the command line or the dialogue gave and with [--n] and [--alh],
    has raised: its exception is written after the dialogue, no result is
    shown and gnuplot is not started; [qfb.dat] is as the call left it. *)
Theorem exit_status_reports_exception
    (float_of : string -> option R) (int_of : string -> option Z)
    (p : parsing) (g : gnuplot_state) (w : World) (code : Z) :
  r_end (run_main float_of int_of p g w) = SysExit code ->
  (p = HelpShown /\ code = 0%Z) \/
  (p = ArgumentRefused /\ code = 2%Z) \/
  exists a q sl mn nb h jcz b0 w1 e f,
    p = Parsed a /\ code = 1%Z /\
    inputs float_of int_of a w = (Some (q, sl, mn, nb, h, jcz, b0), w1) /\
    (exists evs, Forall is_dialogue evs /\ stdout w1 = stdout w ++ evs) /\
    compute_channel q sl mn nb h jcz b0 (a_n a) (a_alh a) = (inl e, f) /\
    run_main float_of int_of p g w
    = mkRun (SysExit 1) (mkWorld (stdin w1) (stdout w1 ++ [SayError e])) f.
Proof.
  destruct p as [a | |]; cbn [run_main r_end]; intros Hend.
  - right. right. unfold main in *.
    destruct (inputs float_of int_of a w)
      as [[[[[[[[q sl] mn] nb] h] jcz] b0] |] w1] eqn:I; [| discriminate].
    destruct (compute_channel q sl mn nb h jcz b0 (a_n a) (a_alh a))
      as [[e | r] f] eqn:C; [| discriminate].
    injection Hend as <-.
    destruct (inputs_converses float_of int_of a w _ w1 I)
      as (used & evs & _ & Hout & Hd & _).
    exists a, q, sl, mn, nb, h, jcz, b0, w1, e, f.
    repeat split; auto. exists evs. auto.
  - left. injection Hend as <-. auto.
  - right. left. injection Hend as <-. auto.
Qed.

(** ** X11: when gnuplot is started *)

(** X11.  [main] starts gnuplot only if [--plot] was given without
    [--noplot], a gnuplot was found, and [compute_channel] returned: in
    that case [main] itself returns. *)
Theorem gnuplot_started_only_on_request
    (float_of : string -> option R) (int_of : string -> option Z)
    (a : Namespace) (g : gnuplot_state) (w : World) :
  ~ In Gnuplot (stdout w) ->
  In Gnuplot (stdout (r_world (main float_of int_of a g w))) ->
  a_plot a = true /\ a_noplot a = false /\ g <> NotFound /\
  r_end (main float_of int_of a g w) = Done.
Proof.
  intros Hfresh Hin.
  assert (Hdia : forall evs, Forall is_dialogue evs -> ~ In Gnuplot evs).
  { intros evs Hd I. rewrite Forall_forall in Hd. exact (Hd _ I). }
  destruct (main_cases float_of int_of a g w)
    as (used & evs & _ & Hd & [(_ & Hout & _) | (q & sl & mn & nb & h & jcz & b0 & w1 & _ &
         [(e & _ & _ & Hout) | (r & _ & He & Hout)])]);
    rewrite Hout in Hin; apply in_app_or in Hin;
    destruct Hin as [Hin | Hin]; try contradiction;
    try (exfalso; exact (Hdia _ Hd Hin)).
  - apply in_app_or in Hin. destruct Hin as [Hin | Hin];
      [exfalso; exact (Hdia _ Hd Hin) |].
    destruct Hin as [Hin | []]. discriminate.
  - apply in_app_or in Hin. destruct Hin as [Hin | Hin];
      [exfalso; exact (Hdia _ Hd Hin) |].
    destruct Hin as [Hin | [Hin | Hin]]; try discriminate.
    destruct (a_plot a), (a_noplot a); cbn in Hin; try contradiction.
    destruct g; cbn in Hin.
    + destruct Hin as [Hin | []]. discriminate.
    + repeat split; auto. discriminate.
    + repeat split; auto. discriminate.
Qed.

(** [main] on a command line that gives all seven values. *)
Lemma main_given_raises
    (float_of : string -> option R) (int_of : string -> option Z)
    (q sl mn nb h : R) (jcz : Z) (b0 : R) (n : Z) (alh : R) (p np : bool)
    (g : gnuplot_state) (w : World) (e : exn) (f : option File) :
  compute_channel q sl mn nb h jcz b0 n alh = (inl e, f) ->
  main float_of int_of (given q sl mn nb h jcz b0 n alh p np) g w
  = mkRun (SysExit 1) (mkWorld (stdin w) (stdout w ++ [SayError e])) f.
Proof.
  intros E. unfold main.
  cbn [inputs given a_q a_sl a_mn a_nb a_h a_jcz a_b0 a_n a_alh con_ret].
  rewrite E. reflexivity.
Qed.

Lemma main_given_returns
    (float_of : string -> option R) (int_of : string -> option Z)
    (q sl mn nb h : R) (jcz : Z) (b0 : R) (n : Z) (alh : R) (p np : bool)
    (g : gnuplot_state) (w : World) (r : ResultRecord) (f : option File) :
  compute_channel q sl mn nb h jcz b0 n alh = (inr r, f) ->
  main float_of int_of (given q sl mn nb h jcz b0 n alh p np) g w
  = mkRun Done
      (mkWorld (stdin w)
         (stdout w ++
          [SayResult r; Say "Data written to 'qfb.dat' (columns: b, qt)."] ++
          (if p && negb np then plot g else []))) f.
Proof.
  intros E. unfold main.
  cbn [inputs given a_q a_sl a_mn a_nb a_h a_jcz a_b0 a_n a_alh a_plot
       a_noplot con_ret].
  rewrite E. destruct (p && negb np).
  - rewrite <- app_assoc. reflexivity.
  - rewrite app_nil_r. reflexivity.
Qed.

Lemma exit_status_reports_exception_witness :
  exists a q sl mn nb h jcz b0 w1 e f,
    Parsed (given 5 0.001 1.5 0 1.2 2 0.5 10000 0.01 true false) = Parsed a /\
    1%Z = 1%Z /\
    inputs digit_float digit_int a (mkWorld [] [])
    = (Some (q, sl, mn, nb, h, jcz, b0), w1) /\
    (exists evs, Forall is_dialogue evs /\ stdout w1 = [] ++ evs) /\
    compute_channel q sl mn nb h jcz b0 (a_n a) (a_alh a) = (inl e, f) /\
    run_main digit_float digit_int
      (Parsed (given 5 0.001 1.5 0 1.2 2 0.5 10000 0.01 true false))
      Runs (mkWorld [] [])
    = mkRun (SysExit 1) (mkWorld (stdin w1) (stdout w1 ++ [SayError e])) f.
Proof.
  destruct (exit_status_reports_exception digit_float digit_int
              (Parsed (given 5 0.001 1.5 0 1.2 2 0.5 10000 0.01 true false))
              Runs (mkWorld [] []) 1%Z) as [(H & _) | [(H & _) | H]].
  - cbn [run_main].
    rewrite (main_given_raises _ _ _ _ _ _ _ _ _ _ _ _ _ _ _ _ _
               rejects_zero_roughness).
    reflexivity.
  - discriminate H.
  - discriminate H.
  - exact H.
Defined.

Lemma gnuplot_started_only_on_request_witness :
  true = true /\ false = false /\ Runs <> NotFound /\
  r_end (main digit_float digit_int
           (given 5 0.001 1.5 0.025 1.2 2 0.5 10000 0.01 true false)
           Runs (mkWorld [] [])) = Done.
Proof.
  apply (gnuplot_started_only_on_request digit_float digit_int
           (given 5 0.001 1.5 0.025 1.2 2 0.5 10000 0.01 true false)
           Runs (mkWorld [] [])).
  - intros [].
  - destruct (returns_on_sound_geometry 5 0.001 1.5 0.025 1.2 2 0.5 10000 0.01)
      as (r & l & E).
    + unfold valid. repeat split; try lra. right; right; reflexivity.
    + lra.
    + lra.
    + rewrite (main_given_returns _ _ _ _ _ _ _ _ _ _ _ _ _ _ _ _ _ E).
      cbn. auto.
Defined.

(** ** X12: a complete command line *)

(** X12.  When the command line gives all seven values, [main] reads
    nothing from the input and asks nothing. *)
Theorem complete_command_line_reads_nothing
    (float_of : string -> option R) (int_of : string -> option Z)
    (q sl mn nb h : R) (jcz : Z) (b0 : R) (n : Z) (alh : R) (p np : bool)
    (g : gnuplot_state) (w : World) :
  stdin (r_world (main float_of int_of
                    (given q sl mn nb h jcz b0 n alh p np) g w)) = stdin w /\
  forall msg,
    In (Ask msg)
       (stdout (r_world (main float_of int_of
                           (given q sl mn nb h jcz b0 n alh p np) g w))) ->
    In (Ask msg) (stdout w).
Proof.
  destruct (compute_channel q sl mn nb h jcz b0 n alh) as [[e | r] f] eqn:E.
  - rewrite (main_given_raises _ _ _ _ _ _ _ _ _ _ _ _ _ _ _ _ _ E).
    cbn [r_world stdin stdout]. split; [reflexivity |].
    intros msg I. apply in_app_or in I. destruct I as [I | [I | []]];
      [exact I | discriminate].
  - rewrite (main_given_returns _ _ _ _ _ _ _ _ _ _ _ _ _ _ _ _ _ E).
    cbn [r_world stdin stdout]. split; [reflexivity |].
    intros msg I. apply in_app_or in I. destruct I as [I | I]; [exact I |].
    exfalso. destruct I as [I | [I | I]]; try discriminate.
    destruct (p && negb np); [| contradiction].
    destruct g; cbn in I; intuition discriminate.
Qed.

(** ** X13: an incomplete command line *)

(** X13.  As soon as one of the seven values is missing, [main] behaves as
    if none had been given: the values that were given are discarded and all
    seven are asked for. *)
Theorem incomplete_command_line_is_ignored
    (float_of : string -> option R) (int_of : string -> option Z)
    (a : Namespace) (g : gnuplot_state) (w : World) :
  missing a ->
  main float_of int_of a g w = main float_of int_of (blank a) g w.
Proof.
  intros Hm. unfold main.
  rewrite (inputs_missing float_of int_of a Hm).
  rewrite (inputs_missing float_of int_of (blank a))
    by (left; reflexivity).
  reflexivity.
Qed.

Lemma incomplete_command_line_is_ignored_witness :
  main digit_float digit_int
    (mkArgs None (Some 0.001) (Some 1.5) (Some 0.025) (Some 1.2) (Some 2%Z)
            (Some 0.5) 10000 0.01 false false)
    Runs (mkWorld ["1"%string] [])
  = main digit_float digit_int
      (blank (mkArgs None (Some 0.001) (Some 1.5) (Some 0.025) (Some 1.2)
                     (Some 2%Z) (Some 0.5) 10000 0.01 false false))
      Runs (mkWorld ["1"%string] []).
Proof.
  apply (incomplete_command_line_is_ignored digit_float digit_int).
  left. reflexivity.
Defined.

(** ** X14: the input ends during the dialogue *)

(** X14.  With a value missing and fewer than seven lines of input, [main]
    ends with the EOFError of a prompt: the input is used up,
    [compute_channel] is not called and [qfb.dat] is not touched. *)
Theorem short_input_ends_before_computing
    (float_of : string -> option R) (int_of : string -> option Z)
    (a : Namespace) (g : gnuplot_state) (w : World) :
  missing a -> (List.length (stdin w) < 7)%nat ->
  r_end (main float_of int_of a g w) = UncaughtEOF /\
  r_file (main float_of int_of a g w) = None /\
  stdin (r_world (main float_of int_of a g w)) = [] /\
  exists evs,
    stdout (r_world (main float_of int_of a g w)) = stdout w ++ evs /\
    Forall is_dialogue evs.
Proof.
  intros Hm Hlen. unfold main.
  rewrite (inputs_missing float_of int_of a Hm).
  destruct (ask_inputs float_of int_of w) as [[v |] w1] eqn:E.
  - exfalso.
    destruct (ask_inputs_converses float_of int_of _ _ _ E)
      as (used & _ & Hin & _ & _ & _ & Hk).
    specialize (Hk ltac:(discriminate)).
    rewrite Hin, length_app in Hlen. lia.
  - destruct (ask_inputs_converses float_of int_of _ _ _ E)
      as (used & evs & _ & Hout & Hd & Hnil & _).
    cbn [r_end r_file r_world]. repeat split; auto. exists evs. auto.
Qed.

Lemma short_input_ends_before_computing_witness :
  r_end (main digit_float digit_int
           (mkArgs None None None None None None None 10000 0.01 false false)
           Runs (mkWorld ["1"; "0"; "x"]%string [])) = UncaughtEOF /\
  r_file (main digit_float digit_int
            (mkArgs None None None None None None None 10000 0.01 false false)
            Runs (mkWorld ["1"; "0"; "x"]%string [])) = None.
Proof.
  destruct (short_input_ends_before_computing digit_float digit_int
              (mkArgs None None None None None None None 10000 0.01 false false)
              Runs (mkWorld ["1"; "0"; "x"]%string []))
    as (H1 & H2 & _).
  - left. reflexivity.
  - cbn. lia.
  - split; assumption.
Defined.

(** ** X15: the selector message *)

(** X15.  If the selector of the command line, when given, is one of 0, 1,
    2 (argparse's [choices]), [main] never reports the selector message of
    [compute_channel]: interactively the prompt only lets 0, 1, 2 through. *)
Theorem selector_message_never_shown
    (float_of : string -> option R) (int_of : string -> option Z)
    (a : Namespace) (g : gnuplot_state) (w : World) (e : exn) :
  (forall j, a_jcz a = Some j -> In j [0; 1; 2]%Z) ->
  ~ In (SayError e) (stdout w) ->
  In (SayError e) (stdout (r_world (main float_of int_of a g w))) ->
  e <> ValueError "jcz must be 0 (Pawlowski), 1 (Agroskin), or 2 (Manning).".
Proof.
  intros Hchoices Hfresh Hin.
  assert (Hdia : forall evs, Forall is_dialogue evs -> ~ In (SayError e) evs).
  { intros evs Hd I. rewrite Forall_forall in Hd. exact (Hd _ I). }
  destruct (main_cases float_of int_of a g w)
    as (used & evs & _ & Hd & [(_ & Hout & _) | (q & sl & mn & nb & h & jcz & b0 & w1 & Hinp &
         [(e' & C & _ & Hout) | (r & _ & _ & Hout)])]);
    rewrite Hout in Hin; apply in_app_or in Hin;
    destruct Hin as [Hin | Hin]; try contradiction;
    try (exfalso; exact (Hdia _ Hd Hin)).
  - apply in_app_or in Hin. destruct Hin as [Hin | Hin];
      [exfalso; exact (Hdia _ Hd Hin) |].
    destruct Hin as [Hin | []]. injection Hin as ->.
    apply (selector_message_not_raised _ _ _ _ _ _ _ _ _ _ _ ) with (2 := C).
    destruct (inputs_selector float_of int_of a w w1 _ _ _ _ _ _ _ Hinp)
      as [Hj | Hj]; [exact (Hchoices _ Hj) | exact Hj].
  - exfalso. apply in_app_or in Hin. destruct Hin as [Hin | Hin];
      [exact (Hdia _ Hd Hin) |].
    destruct Hin as [Hin | [Hin | Hin]]; try discriminate.
    destruct (a_plot a && negb (a_noplot a)); [| contradiction].
    destruct g; cbn in Hin; intuition discriminate.
Qed.

Lemma selector_message_never_shown_witness :
  ValueError "Barzgarshilt (nb) must be > 0."
  <> ValueError "jcz must be 0 (Pawlowski), 1 (Agroskin), or 2 (Manning).".
Proof.
  apply (selector_message_never_shown digit_float digit_int
           (given 5 0.001 1.5 0 1.2 2 0.5 10000 0.01 true false)
           Runs (mkWorld [] [])).
  - intros j Hj. injection Hj as <-. right; right; left; reflexivity.
  - intros [].
  - rewrite (main_given_raises _ _ _ _ _ _ _ _ _ _ _ _ _ _ _ _ _
               rejects_zero_roughness).
    left. reflexivity.
Defined.

(** ** X17: refused parameters on a complete command line *)

(** X17.  On a complete command line that argparse accepts, with a
    roughness or a depth that is not positive or a negative slope, the
    program writes the ValueError of validation and exits with status 1;
    [qfb.dat] is not touched and gnuplot is not started, whatever the plot
    flags. *)
Theorem main_rejects_invalid_command_line
    (float_of : string -> option R) (int_of : string -> option Z)
    (q sl mn nb h : R) (jcz : Z) (b0 : R) (n : Z) (alh : R) (p np : bool)
    (g : gnuplot_state) (w : World) :
  nb <= 0 \/ h <= 0 \/ sl < 0 ->
  exists msg,
    (msg = "Barzgarshilt (nb) must be > 0." \/
     msg = "Depth h must be > 0." \/
     msg = "Slope sl must be >= 0.")%string /\
    run_main float_of int_of
      (Parsed (given q sl mn nb h jcz b0 n alh p np)) g w
    = mkRun (SysExit 1)
        (mkWorld (stdin w) (stdout w ++ [SayError (ValueError msg)])) None.
Proof.
  intros Hinv. cbn [run_main].
  assert (E : exists msg,
            (msg = "Barzgarshilt (nb) must be > 0." \/
             msg = "Depth h must be > 0." \/
             msg = "Slope sl must be >= 0.")%string /\
            compute_channel q sl mn nb h jcz b0 n alh
            = (inl (ValueError msg), None)).
  { unfold compute_channel, validate.
    destruct (Rle_dec nb 0); [eexists; split; [| reflexivity]; auto |].
    destruct (Rle_dec h 0); [eexists; split; [| reflexivity]; auto |].
    destruct (Rlt_dec sl 0); [eexists; split; [| reflexivity]; auto |].
    lra. }
  destruct E as (msg & Hmsg & E).
  exists msg. split; [exact Hmsg |]. apply main_given_raises. exact E.
Qed.

Lemma main_rejects_invalid_command_line_witness :
  exists msg,
    (msg = "Barzgarshilt (nb) must be > 0." \/
     msg = "Depth h must be > 0." \/
     msg = "Slope sl must be >= 0.")%string /\
    run_main digit_float digit_int
      (Parsed (given 5 (-0.001) 1.5 0.025 1.2 2 0.5 10000 0.01 true false))
      Runs (mkWorld [] [])
    = mkRun (SysExit 1)
        (mkWorld [] ([] ++ [SayError (ValueError msg)])) None.
Proof.
  apply (main_rejects_invalid_command_line digit_float digit_int
           5 (-0.001) 1.5 0.025 1.2 2 0.5 10000 0.01 true false Runs
           (mkWorld [] [])).
  right; right. lra.
Defined.

(** * Monotone discharge: the Pavlovsky and Manning formulas *)

Section Monotone.

Variables (sl mn nb h : R) (jcz : Z).
Hypothesis Hvalid : valid sl nb h jcz.
Hypothesis Hformula : jcz <> 1%Z.

Lemma side_length_bound : mn + 1 <= 2 * sqrt (1 + mn ^ 2).
Proof.
  pose proof (sqrt_pos (1 + mn ^ 2)) as Hs.
  pose proof (sqrt_sqrt (1 + mn ^ 2) ltac:(nra)) as Hss.
  set (s := sqrt (1 + mn ^ 2)) in *.
  assert (Hsq : s * s = 1 + mn * mn) by (rewrite Hss; ring).
  clearbody s.
  destruct (Rle_dec (mn + 1) (2 * s)) as [Hle | Hgt]; [exact Hle | exfalso].
  assert (H1 : 0 < (mn + 1 - 2 * s) * (mn + 1 + 2 * s))
    by (apply Rmult_lt_0_compat; lra).
  assert (H2 : 0 <= (3 * mn - 1) * (3 * mn - 1)) by nra.
  nra.
Qed.

(** With an area that is not negative the perimeter is not clamped, and
    exceeds [b + mn * h]. *)
Lemma perimeter_unclamped (b : R) :
  0 <= b + mn * h ->
  perimeter mn h b = b + 2 * h * sqrt (1 + mn ^ 2) /\
  b + mn * h + h <= perimeter mn h b.
Proof.
  intros Hb. destruct Hvalid as (_ & Hh & _).
  pose proof side_length_bound as Hs.
  unfold perimeter. cbv zeta.
  destruct (Rle_dec (b + 2 * h * sqrt (1 + mn ^ 2)) 0); nra.
Qed.

Lemma div_le_cross (a b c d : R) :
  0 < b -> 0 < d -> a * d <= c * b -> a / b <= c / d.
Proof.
  intros Hb Hd Hle. apply Rmult_le_reg_r with (b * d); [nra |].
  replace (a / b * (b * d)) with (a * d) by (field; lra).
  replace (c / d * (b * d)) with (c * b) by (field; lra).
  exact Hle.
Qed.

Lemma radius_monotone (b b' : R) :
  0 <= b + mn * h -> b <= b' ->
  hydraulic_radius mn h b <= hydraulic_radius mn h b'.
Proof.
  intros Hb Hle. pose proof Hvalid as (_ & Hh & _).
  destruct (perimeter_unclamped b Hb) as [Hp Hp0].
  destruct (perimeter_unclamped b' ltac:(lra)) as [Hp' Hp0'].
  pose proof side_length_bound as Hs.
  unfold hydraulic_radius. apply div_le_cross; [lra | lra |].
  rewrite Hp, Hp'. unfold area.
  set (s := sqrt (1 + mn ^ 2)) in *.
  assert (H1 : 0 <= h * h * ((b' - b) * (2 * s - mn)))
    by (apply Rmult_le_pos; nra).
  nra.
Qed.

Lemma Rpower_gt_0 (x y : R) : 0 < Rpower x y.
Proof. unfold Rpower. apply exp_pos. Qed.

Lemma real_coefficient_pos (r : R) : 0 < real_coefficient nb jcz r.
Proof.
  destruct Hvalid as (Hnb & _ & _ & Hj).
  assert (Hinv : 0 < 1 / nb) by (apply Rdiv_lt_0_compat; lra).
  unfold real_coefficient.
  destruct Hj as [-> | [-> | ->]]; [| contradiction Hformula; reflexivity |];
    cbn [Z.eqb Pos.eqb];
    apply Rmult_lt_0_compat; auto using Rpower_gt_0.
Qed.

Lemma real_coefficient_monotone (r r' : R) :
  0 < r -> r <= r' ->
  real_coefficient nb jcz r <= real_coefficient nb jcz r'.
Proof.
  intros Hr Hle. pose proof Hvalid as (Hnb & _ & _ & Hj).
  assert (Hinv : 0 <= 1 / nb) by (left; apply Rdiv_lt_0_compat; lra).
  pose proof (sqrt_nb_pos sl nb h jcz Hvalid) as Hsn.
  unfold real_coefficient.
  destruct Hj as [-> | [-> | ->]]; [| contradiction Hformula; reflexivity |];
    cbn [Z.eqb Pos.eqb]; apply Rmult_le_compat_l; auto.
  - (* Pavlovsky: the exponent steps up at radius 1 *)
    destruct (Rle_dec 1 r), (Rle_dec 1 r'); try lra.
    + apply Rle_Rpower_l; lra.
    + apply Rle_trans with 1.
      * rewrite <- (Rpower_one (1.3 * sqrt nb)). apply Rle_Rpower_l; lra.
      * rewrite <- (Rpower_one (1.5 * sqrt nb)). apply Rle_Rpower_l; lra.
    + apply Rle_Rpower_l; lra.
  - apply Rle_Rpower_l; lra.
Qed.

Lemma root_monotone (r r' : R) :
  r <= r' -> sqrt (Rmax (r * sl) 0) <= sqrt (Rmax (r' * sl) 0).
Proof.
  intros Hle. destruct Hvalid as (_ & _ & Hsl & _).
  apply sqrt_le_1_alt. apply Rle_max_compat_r. nra.
Qed.

(** The discharge on an area that is not negative: real, not negative, and
    not decreasing in the width. *)
Lemma discharge_value (b : R) :
  0 <= b + mn * h ->
  exists x, discharge sl mn nb h jcz b = inr (PFloat x) /\ 0 <= x /\
            (0 < b + mn * h -> x = real_discharge sl mn nb h jcz b).
Proof.
  intros Hb. pose proof Hvalid as (_ & Hh & _).
  destruct Hb as [Hb | Hb].
  - assert (Hr : 0 < hydraulic_radius mn h b).
    { destruct (perimeter_unclamped b ltac:(lra)) as [_ Hp].
      unfold hydraulic_radius, area. apply Rdiv_lt_0_compat; nra. }
    rewrite (discharge_real sl mn nb h jcz b Hr).
    eexists. split; [reflexivity |]. split; [| reflexivity].
    unfold real_discharge. apply Rmult_le_pos; [| apply sqrt_pos].
    apply Rmult_le_pos; [unfold area; nra |].
    left. apply real_coefficient_pos.
  - assert (Ha : area mn h b = 0) by (unfold area; rewrite <- Hb; lra).
    assert (Hr : 0 <= hydraulic_radius mn h b)
      by (apply radius_nonneg; lra).
    unfold discharge.
    destruct (coefficient_nonneg sl nb h jcz Hvalid _ Hr) as [c ->].
    cbn [bind ret mul]. rewrite Ha.
    eexists. split; [reflexivity |]. split; [| lra].
    rewrite !Rmult_0_l. lra.
Qed.

Lemma discharge_monotone (b b' : R) :
  0 <= b + mn * h -> b <= b' ->
  exists x x',
    discharge sl mn nb h jcz b = inr (PFloat x) /\
    discharge sl mn nb h jcz b' = inr (PFloat x') /\
    x <= x'.
Proof.
  intros Hb Hle. pose proof Hvalid as (_ & Hh & _).
  destruct (discharge_value b Hb) as (x & D & Hx & Hreal).
  destruct (discharge_value b' ltac:(lra)) as (x' & D' & Hx' & Hreal').
  exists x, x'. split; [exact D |]. split; [exact D' |].
  destruct Hb as [Hb | Hb].
  - rewrite (Hreal Hb), (Hreal' ltac:(lra)). unfold real_discharge.
    assert (Hr : 0 < hydraulic_radius mn h b).
    { destruct (perimeter_unclamped b ltac:(lra)) as [_ Hp].
      unfold hydraulic_radius, area. apply Rdiv_lt_0_compat; nra. }
    pose proof (radius_monotone b b' ltac:(lra) Hle) as Hrr.
    apply Rmult_le_compat.
    + apply Rmult_le_pos; [unfold area; nra | left; apply real_coefficient_pos].
    + apply sqrt_pos.
    + apply Rmult_le_compat.
      * unfold area; nra.
      * left; apply real_coefficient_pos.
      * unfold area; nra.
      * apply real_coefficient_monotone; assumption.
    + apply root_monotone. exact Hrr.
  - assert (Ha : area mn h b = 0) by (unfold area; rewrite <- Hb; lra).
    unfold discharge in D.
    destruct (coefficient_nonneg sl nb h jcz Hvalid _
                (radius_nonneg mn h b Hh ltac:(lra))) as [c Hc].
    rewrite Hc in D. cbn [bind ret mul] in D. rewrite Ha in D.
    injection D as <-. rewrite !Rmult_0_l. exact Hx'.
Qed.

End Monotone.

(** ** X18: the discharge grows with the width *)

(** X18.  Under the Pavlovsky and the Manning formula, on validated
    parameters, the discharge at a width whose wetted area is not negative
    is a real number that is not negative, and the discharge at any larger
    width is at least as large. *)
Theorem discharge_grows_with_width
    (sl mn nb h : R) (jcz : Z) (b b' : R) :
  valid sl nb h jcz -> jcz <> 1%Z -> 0 <= b + mn * h -> b <= b' ->
  exists x x',
    discharge sl mn nb h jcz b = inr (PFloat x) /\
    discharge sl mn nb h jcz b' = inr (PFloat x') /\
    0 <= x /\ x <= x'.
Proof.
  intros Hv Hf Hb Hle.
  destruct (discharge_monotone sl mn nb h jcz Hv Hf b b' Hb Hle)
    as (x & x' & D & D' & Hxx).
  destruct (discharge_value sl mn nb h jcz Hv Hf b Hb) as (y & Dy & Hy & _).
  exists x, x'. repeat split; auto. congruence.
Qed.

Lemma discharge_grows_with_width_witness :
  exists x x',
    discharge 1 0 1 3 2 0 = inr (PFloat x) /\
    discharge 1 0 1 3 2 (0 + 3) = inr (PFloat x') /\
    0 <= x /\ x <= x'.
Proof.
  apply (discharge_grows_with_width 1 0 1 3 2 0 (0 + 3)).
  - exact crossing_valid.
  - discriminate.
  - lra.
  - lra.
Defined.
